(** * DailyJobs: the scrape / deduplicate / notify cycle of [job_scraper.py]

    A shallow embedding of [scrape_jobs], [send_email_notification] and
    [create_html_table] together with the properties of the cycle:
    storage without duplicates, at-most-once notification, the relevance
    filter per user, and the behaviour under failures of Firestore, of the
    career pages and of the SMTP server. *)

From Stdlib Require Import String Ascii.
From stdpp Require Import base option list strings gmap sorting.

(** ** Data *)

(** A job as the scraper returns it and as it is stored in the Firestore
    collection ['jobs']: a dict with the keys read by this file. *)
Record job := Job {
  job_id : string;
  company : string;
  title : string;
  location : string;
  url : string
}.

#[global] Instance job_eq_dec : EqDecision job.
Proof. solve_decision. Defined.

(** A document of the Firestore collection ['users']; [user_data.get(k)]
    is [None] on a missing key. *)
Record user_doc := UserDoc {
  doc_id : string;
  doc_name : option string;
  doc_email : option string;
  doc_companies : option (list string)
}.

(** The dict built by [get_user_preferences]. *)
Record user := User {
  uid : string;
  name : option string;
  email : option string;
  companies : list string
}.

#[global] Instance user_eq_dec : EqDecision user.
Proof. solve_decision. Defined.

(** What a career page answers to one request. *)
Inductive fetch_result :=
  | Fetched (jobs : list job)
  | FetchFailed.

#[global] Instance fetch_result_eq_dec : EqDecision fetch_result.
Proof. solve_decision. Defined.

Inductive exn :=
  | FirestoreError
  | SMTPError.

#[global] Instance exn_eq_dec : EqDecision exn.
Proof. solve_decision. Defined.

(** The lines written by [print]. *)
Inductive log_line :=
  | NoUsersFound
  | ScrapingFrom (company_name : string)
  | ScrapeFailed (company_name : string)
  | SentEmail (recipient : option string) (n : nat)
  | NoNewJobs (recipient : option string)
  | EmailSent (recipient : option string)
  | EmailError (recipient : option string) (e : exn).

(** One block of the plain-text part, one row of the HTML part. *)
Record text_block := TextBlock {
  tb_company : string;
  tb_position : string;
  tb_location : string;
  tb_apply : string
}.

Inductive html_row :=
  | TableHead
  | CompanyHeader (company_name : string)
  | JobRow (job_title job_location job_url : string).

Record message := Message {
  msg_to : option string;
  msg_subject : nat;
  msg_greeting : option string;
  msg_text : list text_block;
  msg_html : list html_row
}.

Inductive firestore_op :=
  | StreamUsers
  | WhereJobId (jid : string)
  | AddJob (j : job).

(** Everything the process does to the outside, oldest first. *)
Inductive event :=
  | Printed (l : log_line)
  | Scraped (company_name board_token : string)
  | Firestore (op : firestore_op)
  | Notify (recipient_email recipient_name : option string) (jobs : list job)
  | Smtp (m : message) (delivered : bool).

#[global] Instance log_line_eq_dec : EqDecision log_line.
Proof. solve_decision. Defined.
#[global] Instance text_block_eq_dec : EqDecision text_block.
Proof. solve_decision. Defined.
#[global] Instance html_row_eq_dec : EqDecision html_row.
Proof. solve_decision. Defined.
#[global] Instance message_eq_dec : EqDecision message.
Proof. solve_decision. Defined.
#[global] Instance firestore_op_eq_dec : EqDecision firestore_op.
Proof. solve_decision. Defined.
#[global] Instance event_eq_dec : EqDecision event.
Proof. solve_decision. Defined.

(** The surroundings of one run of the script: the configuration, the
    ['users'] collection, the career pages and which calls to Firestore
    and to the SMTP server fail (by their rank in the run). *)
Record environment := Environment {
  COMPANIES : list (string * string);
  users_coll : list user_doc;
  greenhouse : string → string → fetch_result;
  firestore_fails : nat → bool;
  smtp_fails : nat → bool
}.

Record world := World {
  jobs_coll : list job;
  firestore_calls : nat;
  smtp_sessions : nat;
  trace : list event
}.

(** ** A state and exception monad *)

Inductive outcome (A : Type) :=
  | Returned (a : A)
  | Raised (e : exn).
Arguments Returned {A} a.
Arguments Raised {A} e.

Definition M (A : Type) : Type := world → outcome A * world.

Definition ret {A} (a : A) : M A := λ w, (Returned a, w).

Definition raise {A} (e : exn) : M A := λ w, (Raised e, w).

Definition bind {A B} (m : M A) (f : A → M B) : M B := λ w,
  match m w with
  | (Returned a, w') => f a w'
  | (Raised e, w') => (Raised e, w')
  end.

Definition try_except {A} (m : M A) (handler : exn → M A) : M A := λ w,
  match m w with
  | (Returned a, w') => (Returned a, w')
  | (Raised e, w') => handler e w'
  end.

Notation "'let*' x ':=' m1 'in' m2" := (bind m1 (λ x, m2))
  (at level 10, x name, m1 at level 100, m2 at level 200, only parsing).
Notation "m1 >> m2" := (bind m1 (λ _, m2))
  (at level 100, m2 at level 200, only parsing, right associativity).

Fixpoint foldM {A B} (f : B → A → M B) (l : list A) (b : B) : M B :=
  match l with
  | [] => ret b
  | x :: l' => let* b' := f b x in foldM f l' b'
  end.

Definition for_each {A} (l : list A) (body : A → M unit) : M unit :=
  foldM (λ _ x, body x) l tt.

Definition gets {A} (f : world → A) : M A := λ w, (Returned (f w), w).

Definition modify (f : world → world) : M unit := λ w, (Returned tt, f w).

(** The four ways the world changes. *)
Definition record_event (ev : event) (w : world) : world :=
  World (jobs_coll w) (firestore_calls w) (smtp_sessions w) (trace w ++ [ev]).

Definition store_job (j : job) (w : world) : world :=
  World (jobs_coll w ++ [j]) (firestore_calls w) (smtp_sessions w) (trace w).

Definition count_firestore (w : world) : world :=
  World (jobs_coll w) (S (firestore_calls w)) (smtp_sessions w) (trace w).

Definition count_smtp (w : world) : world :=
  World (jobs_coll w) (firestore_calls w) (S (smtp_sessions w)) (trace w).

Definition emit (ev : event) : M unit := modify (record_event ev).

Definition print (l : log_line) : M unit := emit (Printed l).

(** ** Firestore *)

Section Script.
Context (env : environment).

(** One round trip to Firestore: recorded, counted, and failing when the
    environment says so. *)
Definition firestore (op : firestore_op) : M unit :=
  let* n := gets firestore_calls in
  emit (Firestore op) >>
  modify count_firestore >>
  if firestore_fails env n then raise FirestoreError else ret tt.

(** [db.collection('jobs').where('job_id', '==', jid).get()] *)
Definition jobs_where_job_id (jid : string) : M (list job) :=
  firestore (WhereJobId jid) >>
  gets (λ w, filter (λ d, job_id d = jid) (jobs_coll w)).

(** [db.collection('jobs').add(job)] *)
Definition jobs_add (j : job) : M unit :=
  firestore (AddJob j) >> modify (store_job j).

Definition to_user (d : user_doc) : user :=
  User (doc_id d) (doc_name d) (doc_email d) (default [] (doc_companies d)).

Definition get_user_preferences : M (list user) :=
  firestore StreamUsers >> ret (to_user <$> users_coll env).

(** ** The career pages *)

(** Modelled from the spec: [scrape_greenhouse_jobs] of the module
    [greenhouse_scraper], of which only the import is in this file. It
    fails softly: a page that cannot be fetched gives the empty sequence
    and a logged error, never an exception. *)
Definition fetch (company_name board_token : string) : list job :=
  match greenhouse env company_name board_token with
  | Fetched jobs => jobs
  | FetchFailed => []
  end.

Definition scrape_greenhouse_jobs (company_name board_token : string)
  : M (list job) :=
  emit (Scraped company_name board_token) >>
  match greenhouse env company_name board_token with
  | Fetched jobs => ret jobs
  | FetchFailed => print (ScrapeFailed company_name) >> ret []
  end.

(** ** The notification *)

Definition str_le (a b : string) : Prop := String.leb a b.

#[global] Instance str_le_dec a b : Decision (str_le a b).
Proof. unfold str_le. apply _. Defined.

(** The dict [companies] of [create_html_table]. *)
Definition group_step (groups : gmap string (list job)) (j : job)
  : gmap string (list job) :=
  <[company j := default [] (groups !! company j) ++ [j]]> groups.

Definition group_by_company (jobs : list job) : gmap string (list job) :=
  foldl group_step ∅ jobs.

(** [sorted(companies.keys())], each key with its list. *)
Definition sorted_groups (jobs : list job) : list (string * list job) :=
  let groups := group_by_company jobs in
  (λ c, (c, groups !!! c)) <$> merge_sort str_le (elements (dom groups)).

Definition job_row (j : job) : html_row :=
  JobRow (title j) (location j) (url j).

Definition create_html_table (jobs : list job) : list html_row :=
  TableHead ::
  flat_map (λ g : string * list job, CompanyHeader g.1 :: (job_row <$> g.2))
           (sorted_groups jobs).

Definition text_of_job (j : job) : text_block :=
  TextBlock (company j) (title j) (location j) (url j).

Definition compose (recipient_email recipient_name : option string)
  (jobs : list job) : message :=
  Message recipient_email (length jobs) recipient_name
          (text_of_job <$> jobs) (create_html_table jobs).

(** The body of the [try]: one SMTP session. *)
Definition smtp_send (msg : message) : M unit :=
  let* n := gets smtp_sessions in
  modify count_smtp >>
  emit (Smtp msg (negb (smtp_fails env n))) >>
  if smtp_fails env n then raise SMTPError else ret tt.

(** The call is recorded with its arguments ([Notify]). *)
Definition send_email_notification
  (recipient_email recipient_name : option string) (jobs : list job)
  : M unit :=
  emit (Notify recipient_email recipient_name jobs) >>
  let msg := compose recipient_email recipient_name jobs in
  try_except
    (smtp_send msg >> print (EmailSent recipient_email))
    (λ e, print (EmailError recipient_email e)).

(** ** The cycle *)

(** Lines 45-49: the dict [all_jobs]. *)
Definition scrape_company (all_jobs : gmap string (list job))
  (item : string * string) : M (gmap string (list job)) :=
  print (ScrapingFrom item.1) >>
  let* company_jobs := scrape_greenhouse_jobs item.1 item.2 in
  ret (<[item.1 := company_jobs]> all_jobs).

Definition scrape_all : M (gmap string (list job)) :=
  foldM scrape_company (COMPANIES env) ∅.

(** Lines 58-63: one posting. *)
Definition check_job (user_new_jobs : list job) (j : job) : M (list job) :=
  let* job_ref := jobs_where_job_id (job_id j) in
  match job_ref with
  | [] => jobs_add j >> ret (user_new_jobs ++ [j])
  | _ :: _ => ret user_new_jobs
  end.

(** Lines 55-63: one company of the user. *)
Definition check_company (all_jobs : gmap string (list job))
  (user_new_jobs : list job) (c : string) : M (list job) :=
  match all_jobs !! c with
  | Some company_jobs => foldM check_job company_jobs user_new_jobs
  | None => ret user_new_jobs
  end.

(** Lines 53-70: one user. *)
Definition process_user (all_jobs : gmap string (list job)) (u : user)
  : M unit :=
  let* user_new_jobs := foldM (check_company all_jobs) (companies u) [] in
  match user_new_jobs with
  | _ :: _ =>
      send_email_notification (email u) (name u) user_new_jobs >>
      print (SentEmail (email u) (length user_new_jobs))
  | [] => print (NoNewJobs (email u))
  end.

Definition scrape_jobs : M unit :=
  let* users := get_user_preferences in
  match users with
  | [] => print NoUsersFound
  | _ :: _ =>
      let* all_jobs := scrape_all in
      for_each users (process_user all_jobs)
  end.

End Script.

(** A run of the script starts with the stored jobs and nothing else. *)
Definition boot (db : list job) : world := World db 0 0 [].

Definition run_cycle (env : environment) (db : list job)
  : outcome unit * world :=
  scrape_jobs env (boot db).

Definition store_after (env : environment) (db : list job) : list job :=
  jobs_coll (run_cycle env db).2.

(** The cron runs, one after the other, each in its own surroundings. *)
Definition run_cycles (envs : list environment) (db : list job) : list job :=
  foldl (λ db env, store_after env db) db envs.

(** ** Observations *)

Definition notification : Type := option string * option string * list job.

Definition notification_of (ev : event) : option notification :=
  match ev with
  | Notify e n jobs => Some (e, n, jobs)
  | _ => None
  end.

Definition notifications (tr : list event) : list notification :=
  omap notification_of tr.

Definition notified_jobs (tr : list event) : list job :=
  notifications tr ≫= snd.

Definition records (jid : string) (db : list job) : list job :=
  filter (λ d, job_id d = jid) db.

(** The dict [all_jobs] once the scraping loop is over. *)
Definition snapshot (env : environment) : gmap string (list job) :=
  foldl (λ all_jobs item, <[item.1 := fetch env item.1 item.2]> all_jobs)
        ∅ (COMPANIES env).

(** The postings a user's pass goes through, in the order of lines 54-57. *)
Definition company_jobs (all_jobs : gmap string (list job)) (c : string)
  : list job :=
  default [] (all_jobs !! c).

Definition candidates (all_jobs : gmap string (list job)) (u : user)
  : list job :=
  companies u ≫= company_jobs all_jobs.

Definition no_firestore_failure (env : environment) : Prop :=
  ∀ n, firestore_fails env n = false.

(** ** Sample surroundings *)

Module Sample.

Definition a1 : job := Job "a1" "Acme" "PM" "NY" "u1".
Definition a2 : job := Job "a2" "Acme" "Senior PM" "SF" "u2".
Definition g1 : job := Job "g1" "Globex" "PM" "LA" "u3".
Definition al : job := Job "al1" "Alpha" "PM" "NY" "u4".
Definition be : job := Job "be1" "Beta" "PM" "NY" "u5".

Definition pages (acme globex : fetch_result) (c _ : string) : fetch_result :=
  if decide (c = "Acme") then acme
  else if decide (c = "Globex") then globex
  else if decide (c = "Alpha") then Fetched [al]
  else if decide (c = "Beta") then Fetched [be]
  else FetchFailed.

Definition config : list (string * string) :=
  [("Acme", "acme"); ("Globex", "globex"); ("Alpha", "alpha");
   ("Beta", "beta")].

Definition never : nat → bool := λ _, false.
Definition only (k : nat) : nat → bool := λ n, bool_decide (n = k).

Definition doc (i : string) (cs : list string) : user_doc :=
  UserDoc i (Some i) (Some (i +:+ "@example.org")) (Some cs).

(** Two subscribers of the same employer. *)
Definition shared : environment :=
  Environment config [doc "s1" ["Acme"]; doc "s2" ["Acme"]]
              (pages (Fetched [a1]) (Fetched [g1])) never never.

(** The same, one run later: Acme has a second opening. *)
Definition shared_later : environment :=
  Environment config [doc "s1" ["Acme"]; doc "s2" ["Acme"]]
              (pages (Fetched [a1; a2]) (Fetched [g1])) never never.

(** Only Acme is followed, Globex has an opening all the same. *)
Definition acme_only : environment :=
  Environment config [doc "s1" ["Acme"]]
              (pages (Fetched [a1]) (Fetched [g1])) never never.

(** One subscriber each. *)
Definition one_each (acme globex : fetch_result) (db_down : nat → bool)
  : environment :=
  Environment config [doc "s1" ["Acme"]; doc "s2" ["Globex"]]
              (pages acme globex) db_down never.

(** Nobody has subscribed. *)
Definition nobody : environment :=
  Environment config [] (pages (Fetched [a1]) (Fetched [g1])) never never.

(** A subscriber who lists Beta before Alpha. *)
Definition beta_first : environment :=
  Environment config [doc "s1" ["Beta"; "Alpha"]]
              (pages (Fetched [a1]) (Fetched [g1])) never never.

Definition s1 : user := to_user (doc "s1" ["Acme"]).
Definition s2 : user := to_user (doc "s2" ["Acme"]).

End Sample.

(** ** The vocabulary of the properties *)

(** [hoare P m Q E]: from a world in [P], [m] either returns [a] in a
    world in [Q a], or raises [e] in a world in [E e]. *)
Definition hoare {A} (P : world → Prop) (m : M A)
  (Q : A → world → Prop) (E : exn → world → Prop) : Prop :=
  ∀ w, P w →
    match m w with
    | (Returned a, w') => Q a w'
    | (Raised e, w') => E e w'
    end.

(** The events that touch neither the store nor the notifications. *)
Definition calm_event (ev : event) : Prop :=
  match ev with
  | Notify _ _ _ | Firestore _ => False
  | _ => True
  end.

Definition calm (T : list event) : Prop := Forall calm_event T.

(** [quietly m R]: [m] always returns, leaves the store and the count of
    Firestore calls alone, and adds calm events only; [R] relates what
    it returns to the events it adds. *)
Definition quietly {A} (m : M A) (R : A → list event → Prop) : Prop :=
  ∀ w, ∃ a n T,
    m w = (Returned a,
           World (jobs_coll w) (firestore_calls w) n (trace w ++ T))
    ∧ calm T ∧ R a T.

(** [B] brings new identifiers only, each of them once. *)
Definition fresh_block (db0 B : list job) : Prop :=
  NoDup (job_id <$> B) ∧ ∀ j, j ∈ B → job_id j ∉ job_id <$> db0.

Section LedgerVocabulary.
Context (all_jobs : gmap string (list job)).
Context (us : list user) (db0 : list job) (tr0 : list event).

(** Since the world with the store [db0] and the trace [tr0], a pass
    over the users [us] has done [T] and added [B] to the store: every
    added posting, and every posting handed to the notifier, comes from
    a company of a user of [us]. *)
Definition accounted (w : world) (T : list event) (B : list job) : Prop :=
  trace w = tr0 ++ T
  ∧ jobs_coll w = db0 ++ B
  ∧ fresh_block db0 B
  ∧ (∀ j, j ∈ B → ∃ u, u ∈ us ∧ j ∈ candidates all_jobs u)
  ∧ (∀ e n L, (e, n, L) ∈ notifications T →
       ∃ u, u ∈ us ∧ email u = e ∧ name u = n
            ∧ ∀ j, j ∈ L → j ∈ candidates all_jobs u).

(** Inside the pass of [u], with [p] in [user_new_jobs]: the store holds
    what was notified, then [p]. *)
Definition in_pass (u : user) (v p : list job) (w : world) : Prop :=
  ∃ T, accounted w T (notified_jobs T ++ p)
       ∧ ∀ j, j ∈ p → j ∈ candidates all_jobs u.

(** Between two users: the store holds what was notified. *)
Definition between_users (v : list job) (w : world) : Prop :=
  ∃ T, accounted w T (notified_jobs T).

(** After an exception: what the interrupted pass had added is stored
    and was not notified. *)
Definition interrupted (e : exn) (w : world) : Prop :=
  ∃ T B, accounted w T (notified_jobs T ++ B).

End LedgerVocabulary.

(** No call to Firestore made so far has failed. *)
Definition healthy (env : environment) (w : world) : Prop :=
  ∀ m, m < firestore_calls w → firestore_fails env m = false.

(** The run stopped on its first failing call, which is the last thing
    it did. *)
Definition crashed (env : environment) (e : exn) (w : world) : Prop :=
  e = FirestoreError
  ∧ (∃ T op, trace w = T ++ [Firestore op])
  ∧ ∃ n, firestore_calls w = S n ∧ firestore_fails env n = true
         ∧ ∀ m, m < n → firestore_fails env m = false.

(** The identifiers of [v] are in the store. *)
Definition seen (v : list job) (w : world) : Prop :=
  ∀ j, j ∈ v → job_id j ∈ job_id <$> jobs_coll w.

Definition never_raised (e : exn) (w : world) : Prop := False.

(** The same surroundings with another SMTP server. *)
Definition with_smtp (f : nat → bool) (env : environment) : environment :=
  Environment (COMPANIES env) (users_coll env) (greenhouse env)
              (firestore_fails env) f.

(** The events that do not come from an SMTP session or from the two
    [print]s of [send_email_notification]. *)
Definition outside_smtp (ev : event) : bool :=
  match ev with
  | Smtp _ _ | Printed (EmailSent _) | Printed (EmailError _ _) => false
  | _ => true
  end.

Definition alike (w w' : world) : Prop :=
  jobs_coll w = jobs_coll w'
  ∧ firestore_calls w = firestore_calls w'
  ∧ filter outside_smtp (trace w) = filter outside_smtp (trace w').

(** [agree m m']: from alike worlds, [m] and [m'] end the same way in
    alike worlds. *)
Definition agree {A} (m m' : M A) : Prop :=
  ∀ w w', alike w w' → (m w).1 = (m' w').1 ∧ alike (m w).2 (m' w').2.

Definition str_lt (a b : string) : Prop := str_le a b ∧ a ≠ b.

(** The dict [all_jobs] after the pages [l], from [m0]. *)
Definition scraped (env : environment) (l : list (string * string))
  (m0 : gmap string (list job)) : gmap string (list job) :=
  foldl (λ all_jobs item, <[item.1 := fetch env item.1 item.2]> all_jobs)
        m0 l.

(** Modelled from the spec: the Posting Source gives every posting the
    employer it was asked for. *)
Definition tagged (env : environment) : Prop :=
  ∀ c t j, j ∈ fetch env c t → company j = c.

(** The reading under which every subscriber of the employer of a new
    posting gets it. *)
Definition every_follower_notified (env : environment) (db : list job)
  : Prop :=
  ∀ u c jobs P,
    u ∈ to_user <$> users_coll env → c ∈ companies u →
    snapshot env !! c = Some jobs → P ∈ jobs →
    job_id P ∉ job_id <$> db →
    ∃ L, (email u, name u, L) ∈ notifications (trace (run_cycle env db).2)
         ∧ P ∈ L.


(** ** The anatomy of a trace *)

(** The identifiers looked up in the store, the recipients of the
    summary lines ("Sent email to ..." and "No new jobs found for ..."),
    and the pages requested, each in the order of the trace. *)
Definition query_of (ev : event) : option string :=
  match ev with
  | Firestore (WhereJobId jid) => Some jid
  | _ => None
  end.

Definition queries (tr : list event) : list string := omap query_of tr.

Definition summary_of (ev : event) : option (option string) :=
  match ev with
  | Printed (SentEmail e _) | Printed (NoNewJobs e) => Some e
  | _ => None
  end.

Definition summaries (tr : list event) : list (option string) :=
  omap summary_of tr.

Definition scrape_of (ev : event) : option (string * string) :=
  match ev with
  | Scraped c t => Some (c, t)
  | _ => None
  end.

Definition scrapes (tr : list event) : list (string * string) :=
  omap scrape_of tr.

(** The events of lines 58-63. *)
Definition job_lookup (ev : event) : Prop :=
  match ev with
  | Firestore (WhereJobId _) | Firestore (AddJob _) => True
  | _ => False
  end.

(** What the loop of lines 46-49 writes. *)
Definition scrape_log (env : environment) (l : list (string * string))
  : list event :=
  l ≫= λ item,
    [Printed (ScrapingFrom item.1); Scraped item.1 item.2] ++
    match greenhouse env item.1 item.2 with
    | Fetched _ => []
    | FetchFailed => [Printed (ScrapeFailed item.1)]
    end.

Definition is_job_row (r : html_row) : bool :=
  match r with
  | JobRow _ _ _ => true
  | _ => false
  end.

(** The notifications [N] go to users of [us], in their order, at most
    one each, each with a non-empty list of postings taken, in order,
    from the postings of the companies of the user. *)
Definition in_user_order (all_jobs : gmap string (list job))
  (N : list notification) (us : list user) : Prop :=
  ∃ us', us' `sublist_of` us
         ∧ Forall2 (λ (x : notification) u,
                      x.1.1 = email u ∧ x.1.2 = name u ∧ x.2 ≠ []
                      ∧ x.2 `sublist_of` candidates all_jobs u)
                   N us'.

(** Inside the loops of lines 54-63, started in [w0] with [p0] in
    [user_new_jobs] and gone through [vis]: only lookups and adds
    happened, one lookup per posting, and [user_new_jobs] grew by
    postings of [vis], in order. *)
Definition scanning (w0 : world) (p0 vis p : list job) (w : world) : Prop :=
  smtp_sessions w = smtp_sessions w0
  ∧ ∃ F q, trace w = trace w0 ++ F ∧ Forall job_lookup F
           ∧ queries F = job_id <$> vis
           ∧ p = p0 ++ q ∧ q `sublist_of` vis.

Definition scan_interrupted (w0 : world) (e : exn) (w : world) : Prop :=
  smtp_sessions w = smtp_sessions w0
  ∧ ∃ F, trace w = trace w0 ++ F ∧ Forall job_lookup F.

(** After the users [us], from [w0]: one summary line per user, one
    lookup per posting of their companies, no page requested, one SMTP
    session per notification. *)
Definition reported (all_jobs : gmap string (list job)) (w0 : world)
  (us : list user) (w : world) : Prop :=
  ∃ T, trace w = trace w0 ++ T
       ∧ summaries T = email <$> us
       ∧ queries T = job_id <$> (us ≫= candidates all_jobs)
       ∧ scrapes T = []
       ∧ smtp_sessions w = smtp_sessions w0 + length (notifications T)
       ∧ in_user_order all_jobs (notifications T) us.

Definition report_interrupted (all_jobs : gmap string (list job))
  (w0 : world) (us : list user) (e : exn) (w : world) : Prop :=
  ∃ T, trace w = trace w0 ++ T
       ∧ scrapes T = []
       ∧ smtp_sessions w = smtp_sessions w0 + length (notifications T)
       ∧ in_user_order all_jobs (notifications T) us.

(** Every configured page can be fetched. *)
Definition pages_answer (env : environment) : Prop :=
  Forall (λ item : string * string,
            greenhouse env item.1 item.2 ≠ FetchFailed)
         (COMPANIES env).

(** The world in which the loop over the users starts. *)
Definition after_scraping (env : environment) (db : list job) : world :=
  World db 1 0 (Firestore StreamUsers :: scrape_log env (COMPANIES env)).

(** What was handed to the notifier over several runs. *)
Fixpoint run_history (envs : list environment) (db : list job) : list job :=
  match envs with
  | [] => []
  | env :: envs' =>
      notified_jobs (trace (run_cycle env db).2)
      ++ run_history envs' (store_after env db)
  end.

(** * Proofs *)

(** ** Reasoning about runs *)

Section Rules.
Context {A B : Type}.
Implicit Types (P : world → Prop) (E : exn → world → Prop).

Lemma hoare_ret P (Q : A → world → Prop) E a :
  (∀ w, P w → Q a w) → hoare P (ret a) Q E.
Proof. intros H w Hw. by apply H. Qed.

Lemma hoare_bind P (m : M A) (f : A → M B) (R : A → world → Prop)
  (Q : B → world → Prop) E :
  hoare P m R E → (∀ a, hoare (R a) (f a) Q E) → hoare P (bind m f) Q E.
Proof.
  intros Hm Hf w Hw. unfold bind. specialize (Hm w Hw).
  destruct (m w) as [[a|e] w']; [by apply Hf | done].
Qed.

Lemma hoare_conseq P P' (m : M A) (Q Q' : A → world → Prop) E E' :
  hoare P' m Q' E' →
  (∀ w, P w → P' w) → (∀ a w, Q' a w → Q a w) → (∀ e w, E' e w → E e w) →
  hoare P m Q E.
Proof.
  intros Hm HP HQ HE w Hw. specialize (Hm w (HP w Hw)).
  destruct (m w) as [[a|e] w']; auto.
Qed.

End Rules.

(** The loop rule: the invariant sees what has been traversed so far. *)
Lemma hoare_foldM {A B} (I : list A → B → world → Prop) E
  (f : B → A → M B) (l : list A) (b : B) :
  (∀ pre x suf b, l = pre ++ x :: suf →
     hoare (I pre b) (f b x) (I (pre ++ [x])) E) →
  hoare (I [] b) (foldM f l b) (I l) E.
Proof.
  intros Hf.
  enough (∀ suf pre b, l = pre ++ suf →
            hoare (I pre b) (foldM f suf b) (I l) E) as H by by apply (H l []).
  induction suf as [|x suf IH]; intros pre b' Hl.
  - rewrite app_nil_r in Hl. subst pre. intros w Hw. exact Hw.
  - simpl. eapply hoare_bind; [by eapply Hf|].
    intros b''. apply IH. by rewrite <- app_assoc.
Qed.

Lemma hoare_for_each {A} (I : list A → world → Prop) E
  (body : A → M unit) (l : list A) :
  (∀ pre x suf, l = pre ++ x :: suf →
     hoare (I pre) (body x) (λ _, I (pre ++ [x])) E) →
  hoare (I []) (for_each l body) (λ _, I l) E.
Proof.
  intros H. unfold for_each.
  apply (hoare_foldM (λ pre _, I pre) E (λ _ x, body x) l tt).
  intros pre x suf _ Hl. by eapply H.
Qed.

Lemma foldM_app {A B} (f : B → A → M B) (l1 l2 : list A) (b : B) w :
  foldM f (l1 ++ l2) b w = bind (foldM f l1 b) (foldM f l2) w.
Proof.
  revert b w. induction l1 as [|x l1 IH]; intros b w; [done|].
  simpl. unfold bind. destruct (f b x w) as [[b'|e] w']; [|done].
  rewrite IH. done.
Qed.

(** ** What each step of the script does *)

Section Steps.
Context (env : environment).

Lemma firestore_run op w :
  firestore env op w =
  (if firestore_fails env (firestore_calls w)
   then Raised FirestoreError else Returned tt,
   count_firestore (record_event (Firestore op) w)).
Proof.
  unfold firestore, bind, gets, emit, modify, raise, ret. simpl.
  by destruct (firestore_fails env (firestore_calls w)).
Qed.

(** The four ways through lines 58-63. *)
Lemma check_job_run user_new_jobs j w :
  let w1 :=
    count_firestore (record_event (Firestore (WhereJobId (job_id j))) w) in
  let w2 := count_firestore (record_event (Firestore (AddJob j)) w1) in
  check_job env user_new_jobs j w =
  if firestore_fails env (firestore_calls w) then (Raised FirestoreError, w1)
  else match records (job_id j) (jobs_coll w) with
       | _ :: _ => (Returned user_new_jobs, w1)
       | [] =>
           if firestore_fails env (S (firestore_calls w))
           then (Raised FirestoreError, w2)
           else (Returned (user_new_jobs ++ [j]), store_job j w2)
       end.
Proof.
  unfold check_job, jobs_where_job_id, jobs_add, bind. rewrite firestore_run.
  destruct (firestore_fails env (firestore_calls w)); [done|].
  unfold gets, records. simpl.
  destruct (filter _ (jobs_coll w)); [|done].
  rewrite firestore_run. simpl.
  by destruct (firestore_fails env (S (firestore_calls w))).
Qed.

End Steps.

(** ** Steps that touch neither the store nor the notifications *)

Lemma quietly_ret {A} (a : A) (R : A → list event → Prop) :
  R a [] → quietly (ret a) R.
Proof.
  intros HR w. exists a, (smtp_sessions w), []. rewrite app_nil_r.
  split_and!; [by destruct w | constructor | done].
Qed.

Lemma quietly_emit ev (R : unit → list event → Prop) :
  calm_event ev → R tt [ev] → quietly (emit ev) R.
Proof.
  intros Hev HR w. exists tt, (smtp_sessions w), [ev].
  split_and!; [done | by repeat constructor | done].
Qed.

Lemma quietly_bind {A B} (m : M A) (f : A → M B)
  (R1 : A → list event → Prop) (R : B → list event → Prop) :
  quietly m R1 →
  (∀ a T1, R1 a T1 → quietly (f a) (λ b T2, R b (T1 ++ T2))) →
  quietly (bind m f) R.
Proof.
  intros Hm Hf w. destruct (Hm w) as (a & n & T1 & Em & HT1 & HR1).
  destruct (Hf a T1 HR1 (World (jobs_coll w) (firestore_calls w) n
                               (trace w ++ T1)))
    as (b & n' & T2 & Ef & HT2 & HR).
  exists b, n', (T1 ++ T2). unfold bind. rewrite Em, Ef. simpl.
  rewrite <- app_assoc. split_and!; [done | by apply Forall_app | done].
Qed.

Lemma quietly_weaken {A} (m : M A) (R R' : A → list event → Prop) :
  quietly m R → (∀ a T, R a T → R' a T) → quietly m R'.
Proof.
  intros Hm HR w. destruct (Hm w) as (a & n & T & ? & ? & ?).
  exists a, n, T. auto.
Qed.

Lemma hoare_quietly {A} (m : M A) (R : A → list event → Prop)
  (P : world → Prop) (Q : A → world → Prop) E :
  quietly m R →
  (∀ w a n T, P w → calm T → R a T →
     Q a (World (jobs_coll w) (firestore_calls w) n (trace w ++ T))) →
  hoare P m Q E.
Proof.
  intros Hm HQ w Hw. destruct (Hm w) as (a & n & T & -> & HT & HR). eauto.
Qed.

Lemma notifications_app T1 T2 :
  notifications (T1 ++ T2) = notifications T1 ++ notifications T2.
Proof. apply omap_app. Qed.

Lemma notifications_calm T : calm T → notifications T = [].
Proof.
  induction 1 as [|ev T Hev _ IH]; [done|].
  change (ev :: T) with ([ev] ++ T). rewrite notifications_app, IH.
  by destruct ev.
Qed.

Section Quiet.
Context (env : environment).

Lemma send_email_notification_run e n jobs w :
  let failed := smtp_fails env (smtp_sessions w) in
  send_email_notification env e n jobs w =
  (Returned tt,
   record_event
     (Printed (if failed then EmailError e SMTPError else EmailSent e))
     (record_event (Smtp (compose e n jobs) (negb failed))
        (count_smtp (record_event (Notify e n jobs) w)))).
Proof.
  unfold send_email_notification, try_except, smtp_send, bind, gets, modify,
    print, emit, raise, ret. simpl.
  by destruct (smtp_fails env (smtp_sessions w)).
Qed.

Lemma scrape_greenhouse_jobs_quietly c t :
  quietly (scrape_greenhouse_jobs env c t)
          (λ jobs T, jobs = fetch env c t ∧ Scraped c t ∈ T).
Proof.
  unfold scrape_greenhouse_jobs, fetch.
  eapply quietly_bind; [by apply (quietly_emit _ (λ _ T, T = [Scraped c t]))|].
  intros [] T1 ->. destruct (greenhouse env c t).
  - apply quietly_ret. split; [done | set_solver].
  - eapply quietly_bind;
      [by apply (quietly_emit _ (λ _ _, True))|].
    intros [] T2 _. apply quietly_ret. split; [done | set_solver].
Qed.

Lemma scrape_all_quietly :
  quietly (scrape_all env)
          (λ all_jobs T, all_jobs = snapshot env
                         ∧ ∀ c t, (c, t) ∈ COMPANIES env → Scraped c t ∈ T).
Proof.
  unfold scrape_all, snapshot.
  enough (∀ l m0 T0,
    quietly (foldM (scrape_company env) l m0)
      (λ all_jobs T,
         all_jobs = foldl (λ all_jobs item,
                             <[item.1 := fetch env item.1 item.2]> all_jobs)
                          m0 l
         ∧ ∀ c t, (c, t) ∈ l → Scraped c t ∈ T0 ++ T)) as H.
  { eapply quietly_weaken; [apply (H _ ∅ [])|]. naive_solver. }
  induction l as [|[c t] l IH]; intros m0 T0.
  - apply quietly_ret. split; [done|]. intros ?? []%elem_of_nil.
  - simpl.
    apply (quietly_bind _ _ (λ m T, m = <[c:=fetch env c t]> m0
                                    ∧ Scraped c t ∈ T)).
    + unfold scrape_company. simpl.
      eapply quietly_bind; [by apply (quietly_emit _ (λ _ _, True))|].
      intros [] T1 _. eapply quietly_bind; [apply scrape_greenhouse_jobs_quietly|].
      intros jobs T2 [-> HT2].
      apply quietly_ret. split; [done | set_solver].
    + intros m T1 [-> HT1]. eapply quietly_weaken; [apply (IH _ (T0 ++ T1))|].
      simpl. intros m' T [-> HT]. split; [done|].
      intros c' t' [[= -> ->]|Hin]%elem_of_cons.
      * set_solver.
      * rewrite app_assoc. by apply HT.
Qed.

End Quiet.

(** ** The rule for the loop over the users

    An invariant [K] between two users and an invariant [J] inside the
    pass of one user, both indexed by the postings gone through so far
    ([J] also by the user and by [user_new_jobs]), carry over the whole
    loop as soon as they survive one posting, the calm steps and the
    hand-over of [user_new_jobs] to the notifier. *)

Section PassRule.
Context (env : environment) (all_jobs : gmap string (list job)).
Context (J : user → list job → list job → world → Prop)
        (K : list job → world → Prop)
        (X : exn → world → Prop).
Context (l : list user).

Hypothesis J_check : ∀ u c js j v p,
  u ∈ l → c ∈ companies u → all_jobs !! c = Some js → j ∈ js →
  hoare (J u v p) (check_job env p j) (J u (v ++ [j])) X.
Hypothesis K_enter : ∀ u v w, u ∈ l → K v w → J u v [] w.
Hypothesis K_idle : ∀ u v w n T,
  u ∈ l → J u v [] w → calm T →
  K v (World (jobs_coll w) (firestore_calls w) n (trace w ++ T)).
Hypothesis K_flush : ∀ u v p w n T,
  u ∈ l → p ≠ [] → J u v p w → calm T →
  K v (World (jobs_coll w) (firestore_calls w) n
             (trace w ++ Notify (email u) (name u) p :: T)).

Lemma check_company_rule u c v p :
  u ∈ l → c ∈ companies u →
  hoare (J u v p) (check_company env all_jobs p c)
        (J u (v ++ company_jobs all_jobs c)) X.
Proof.
  intros Hu Hc. unfold check_company, company_jobs.
  destruct (all_jobs !! c) as [js|] eqn:Hjs; simpl.
  - eapply hoare_conseq;
      [apply (hoare_foldM (λ pre p, J u (v ++ pre) p) X (check_job env) js p)
      |..]; [|intros w Hw|intros a w Hw; exact Hw|done].
    + intros pre x suf b ->. rewrite app_assoc.
      eapply J_check; [done..|]. set_solver.
    + simpl. by rewrite app_nil_r.
  - rewrite app_nil_r. by apply hoare_ret.
Qed.

Lemma notify_run u p w :
  ∃ n T,
    (send_email_notification env (email u) (name u) p >>
     print (SentEmail (email u) (length p))) w
    = (Returned tt,
       World (jobs_coll w) (firestore_calls w) n
             (trace w ++ Notify (email u) (name u) p :: T))
    ∧ calm T.
Proof.
  eexists _, [_; _; _]. unfold bind. rewrite send_email_notification_run.
  unfold print, emit, modify, record_event, count_smtp. simpl.
  rewrite <- !app_assoc. split; [done|]. by repeat constructor.
Qed.

Lemma process_user_rule u v :
  u ∈ l →
  hoare (K v) (process_user env all_jobs u)
        (λ _, K (v ++ candidates all_jobs u)) X.
Proof.
  intros Hu. unfold process_user, candidates.
  eapply hoare_bind.
  - eapply hoare_conseq;
      [apply (hoare_foldM
                (λ pre p, J u (v ++ (pre ≫= company_jobs all_jobs)) p) X
                (check_company env all_jobs) (companies u) [])|..];
      [|intros w Hw|intros a w Hw; exact Hw|done].
    + intros pre c suf p Hl. rewrite bind_app, app_assoc. simpl.
      rewrite app_nil_r. apply check_company_rule; [done|].
      rewrite Hl. set_solver.
    + simpl. rewrite app_nil_r. by apply K_enter.
  - intros [|j p].
    + eapply hoare_quietly;
        [by apply (quietly_emit _ (λ _ _, True))|].
      intros w [] n T Hw HT _. by eapply K_idle.
    + intros w Hw.
      destruct (notify_run u (j :: p) w) as (n & T & -> & HT).
      by eapply K_flush.
Qed.

Lemma pass_rule :
  hoare (K []) (for_each l (process_user env all_jobs))
        (λ _, K (l ≫= candidates all_jobs)) X.
Proof.
  pose proof (hoare_for_each (λ pre, K (pre ≫= candidates all_jobs)) X
                (process_user env all_jobs) l) as H.
  simpl in H. apply H. clear H.
  intros pre u suf Hl. rewrite bind_app. simpl. rewrite app_nil_r.
  apply process_user_rule. rewrite Hl. set_solver.
Qed.

End PassRule.

(** The script before and around the loop over the users. *)
Lemma scrape_jobs_run env w :
  let w1 := count_firestore (record_event (Firestore StreamUsers) w) in
  if firestore_fails env (firestore_calls w)
  then scrape_jobs env w = (Raised FirestoreError, w1)
  else match to_user <$> users_coll env with
       | [] =>
           scrape_jobs env w
           = (Returned tt, record_event (Printed NoUsersFound) w1)
       | users =>
           ∃ n T,
             calm T
             ∧ (∀ c t, (c, t) ∈ COMPANIES env → Scraped c t ∈ T)
             ∧ scrape_jobs env w
               = for_each users (process_user env (snapshot env))
                   (World (jobs_coll w) (S (firestore_calls w)) n
                          (trace w ++ Firestore StreamUsers :: T))
       end.
Proof.
  intros w1. unfold scrape_jobs, get_user_preferences.
  destruct (firestore_fails env (firestore_calls w)) eqn:Hf.
  { unfold bind. by rewrite firestore_run, Hf. }
  destruct (to_user <$> users_coll env) as [|u us].
  { unfold bind. by rewrite firestore_run, Hf. }
  destruct (scrape_all_quietly env w1) as (m & n & T & Es & HT & -> & HS).
  exists n, T. split_and!; [done..|].
  unfold bind. rewrite firestore_run, Hf. unfold ret at 1. fold w1.
  rewrite Es. subst w1. simpl. by rewrite <- app_assoc.
Qed.

(** The same rule for a whole run of the script. *)
Lemma cycle_rule env db
  (J : user → list job → list job → world → Prop)
  (K : list job → world → Prop) (X : exn → world → Prop) :
  let users := to_user <$> users_coll env in
  let all_jobs := snapshot env in
  (∀ u c js j v p,
     u ∈ users → c ∈ companies u → all_jobs !! c = Some js → j ∈ js →
     hoare (J u v p) (check_job env p j) (J u (v ++ [j])) X) →
  (∀ u v w, u ∈ users → K v w → J u v [] w) →
  (∀ u v w n T,
     u ∈ users → J u v [] w → calm T →
     K v (World (jobs_coll w) (firestore_calls w) n (trace w ++ T))) →
  (∀ u v p w n T,
     u ∈ users → p ≠ [] → J u v p w → calm T →
     K v (World (jobs_coll w) (firestore_calls w) n
                (trace w ++ Notify (email u) (name u) p :: T))) →
  (firestore_fails env 0 = true →
     X FirestoreError (World db 1 0 [Firestore StreamUsers])) →
  (firestore_fails env 0 = false →
     ∀ n T, calm T → K [] (World db 1 n (Firestore StreamUsers :: T))) →
  match run_cycle env db with
  | (Returned _, w) => K (users ≫= candidates all_jobs) w
  | (Raised e, w) => X e w
  end.
Proof.
  intros users all_jobs HJ Henter Hidle Hflush Hfail Hstart.
  unfold run_cycle. pose proof (scrape_jobs_run env (boot db)) as Hrun.
  simpl in Hrun. destruct (firestore_fails env 0).
  { rewrite Hrun. by apply Hfail. }
  fold users in Hrun. destruct users as [|u us] eqn:Hus.
  { rewrite Hrun. apply (Hstart eq_refl 0 [Printed NoUsersFound]).
    by repeat constructor. }
  destruct Hrun as (n & T & HT & _ & ->).
  apply (pass_rule env all_jobs J K X (u :: us)); auto.
Qed.

(** ** The ledger: what is stored is what was notified *)

Lemma records_nil jid db : records jid db = [] ↔ jid ∉ job_id <$> db.
Proof.
  unfold records. rewrite list_elem_of_fmap. split.
  - intros Hnil (d & -> & Hd).
    assert (d ∈ filter (λ d', job_id d' = job_id d) db) as Hin
      by by apply list_elem_of_filter.
    rewrite Hnil in Hin. by apply elem_of_nil in Hin.
  - intros Hno. destruct (filter _ db) as [|d ?] eqn:Hf; [done|].
    assert (d ∈ filter (λ d', job_id d' = jid) db) as [? ?]%list_elem_of_filter
      by (rewrite Hf; left).
    destruct Hno. by exists d.
Qed.

Lemma fresh_block_snoc db0 B j :
  fresh_block db0 B → job_id j ∉ job_id <$> db0 ++ B →
  fresh_block db0 (B ++ [j]).
Proof.
  intros [Hnd Hfr] Hj. rewrite fmap_app, elem_of_app in Hj. split.
  - rewrite fmap_app. apply NoDup_app. split_and!; [done| |apply NoDup_singleton].
    intros i Hi Hin. simpl in Hin. apply list_elem_of_singleton in Hin as ->.
    tauto.
  - intros j' [?| ->%list_elem_of_singleton]%elem_of_app; [by apply Hfr | tauto].
Qed.

Section Ledger.
Context (env : environment) (all_jobs : gmap string (list job)).
Context (us : list user) (db0 : list job) (tr0 : list event).

Lemma accounted_silent w w' T B T2 :
  accounted all_jobs us db0 tr0 w T B →
  jobs_coll w' = jobs_coll w → trace w' = trace w ++ T2 →
  notifications T2 = [] →
  accounted all_jobs us db0 tr0 w' (T ++ T2) B.
Proof.
  intros (Htr & Hdb & Hfr & HB & HN) Hdb' Htr' HT2. unfold accounted.
  rewrite Hdb', Htr', Htr, <- app_assoc, notifications_app, HT2, app_nil_r.
  done.
Qed.

Local Ltac silent_step :=
  eapply accounted_silent;
  [eassumption | done | simpl; by rewrite <- ?app_assoc | done].

Lemma notified_jobs_silent T T2 :
  notifications T2 = [] → notified_jobs (T ++ T2) = notified_jobs T.
Proof.
  intros H. unfold notified_jobs. by rewrite notifications_app, H, app_nil_r.
Qed.

Lemma elem_of_candidates u c js j :
  c ∈ companies u → all_jobs !! c = Some js → j ∈ js →
  j ∈ candidates all_jobs u.
Proof.
  intros Hc Hjs Hj. unfold candidates. apply list_elem_of_bind.
  exists c. split; [|done]. unfold company_jobs. by rewrite Hjs.
Qed.

Lemma ledger_check u c js j v p :
  u ∈ us → c ∈ companies u → all_jobs !! c = Some js → j ∈ js →
  hoare (in_pass all_jobs us db0 tr0 u v p) (check_job env p j)
        (in_pass all_jobs us db0 tr0 u (v ++ [j]))
        (interrupted all_jobs us db0 tr0).
Proof.
  intros Hu Hc Hjs Hj w (T & Hacc & Hp). rewrite check_job_run.
  destruct (firestore_fails env (firestore_calls w)).
  { exists (T ++ [Firestore (WhereJobId (job_id j))]), p.
    rewrite notified_jobs_silent by done. silent_step. }
  destruct (records (job_id j) (jobs_coll w)) eqn:Hrec.
  2:{ exists (T ++ [Firestore (WhereJobId (job_id j))]).
      rewrite notified_jobs_silent by done. split; [|done]. silent_step. }
  apply records_nil in Hrec.
  destruct (firestore_fails env (S (firestore_calls w))).
  { exists (T ++ [Firestore (WhereJobId (job_id j)); Firestore (AddJob j)]), p.
    rewrite notified_jobs_silent by done. silent_step. }
  exists (T ++ [Firestore (WhereJobId (job_id j)); Firestore (AddJob j)]).
  rewrite notified_jobs_silent by done.
  assert (j ∈ candidates all_jobs u) as Hcand by by eapply elem_of_candidates.
  split.
  2:{ intros j' [?| ->%list_elem_of_singleton]%elem_of_app; auto. }
  destruct Hacc as (Htr & Hdb & Hfr & HB & HN).
  unfold accounted, store_job. simpl. rewrite Htr, Hdb, <- !app_assoc.
  rewrite notifications_app, app_nil_r. split_and!; [done|done| | |done].
  - rewrite app_assoc. apply fresh_block_snoc; [done|]. by rewrite <- Hdb.
  - intros j' Hj'. rewrite app_assoc in Hj'.
    apply elem_of_app in Hj' as [?| ->%list_elem_of_singleton]; eauto.
Qed.

Lemma ledger_enter u v w :
  between_users all_jobs us db0 tr0 v w → in_pass all_jobs us db0 tr0 u v [] w.
Proof.
  intros (T & Hacc). exists T. rewrite app_nil_r. split; [done|].
  intros j []%elem_of_nil.
Qed.

Lemma ledger_idle u v w n T :
  in_pass all_jobs us db0 tr0 u v [] w → calm T →
  between_users all_jobs us db0 tr0 v
    (World (jobs_coll w) (firestore_calls w) n (trace w ++ T)).
Proof.
  intros (T0 & Hacc & _) HT%notifications_calm. exists (T0 ++ T).
  rewrite app_nil_r in Hacc. rewrite notified_jobs_silent by done.
  silent_step.
Qed.

Lemma ledger_flush u v p w n T :
  u ∈ us → in_pass all_jobs us db0 tr0 u v p w → calm T →
  between_users all_jobs us db0 tr0 v (World (jobs_coll w) (firestore_calls w) n
                         (trace w ++ Notify (email u) (name u) p :: T)).
Proof.
  intros Hu (T0 & (Htr & Hdb & Hfr & HB & HN) & Hp) HT%notifications_calm.
  exists (T0 ++ Notify (email u) (name u) p :: T).
  assert (notifications (T0 ++ Notify (email u) (name u) p :: T)
          = notifications T0 ++ [(email u, name u, p)]) as EN.
  { change (Notify (email u) (name u) p :: T)
      with ([Notify (email u) (name u) p] ++ T).
    by rewrite !notifications_app, HT. }
  assert (notified_jobs (T0 ++ Notify (email u) (name u) p :: T)
          = notified_jobs T0 ++ p) as EJ.
  { unfold notified_jobs. rewrite EN, bind_app. simpl. by rewrite app_nil_r. }
  unfold accounted. simpl. rewrite EJ, EN, Htr, <- app_assoc.
  split_and!; [done..|].
  intros e m L [?|[= -> -> ->]%list_elem_of_singleton]%elem_of_app; eauto.
Qed.

End Ledger.

Lemma candidates_inv all_jobs u j :
  j ∈ candidates all_jobs u →
  ∃ c jobs, c ∈ companies u ∧ all_jobs !! c = Some jobs ∧ j ∈ jobs.
Proof.
  unfold candidates, company_jobs. intros (c & Hj & Hc)%list_elem_of_bind.
  destruct (all_jobs !! c) as [jobs|] eqn:E; simpl in Hj.
  - by exists c, jobs.
  - by apply elem_of_nil in Hj.
Qed.

(** The ledger of a whole run: the store is the old store followed by
    what was handed to the notifier and, after a crash, by what the
    interrupted pass had added. *)
Lemma cycle_ledger env db :
  ∃ B, accounted (snapshot env) (to_user <$> users_coll env) db []
         (run_cycle env db).2 (trace (run_cycle env db).2)
         (notified_jobs (trace (run_cycle env db).2) ++ B)
       ∧ (∀ a, (run_cycle env db).1 = Returned a → B = []).
Proof.
  pose proof (cycle_rule env db
    (in_pass (snapshot env) (to_user <$> users_coll env) db [])
    (between_users (snapshot env) (to_user <$> users_coll env) db [])
    (interrupted (snapshot env) (to_user <$> users_coll env) db [])) as H.
  simpl in H.
  assert (∀ T, notifications T = [] →
            accounted (snapshot env) (to_user <$> users_coll env) db []
              (World db 1 0 T) T (notified_jobs T ++ [])) as Hboot.
  { intros T HT. unfold accounted, notified_jobs. rewrite HT. simpl.
    rewrite app_nil_r. split_and!; [done..| | |].
    - split; [constructor | intros ? []%elem_of_nil].
    - intros ? []%elem_of_nil.
    - intros ??? []%elem_of_nil. }
  ospecialize* H.
  - intros. by eapply ledger_check.
  - intros. by apply ledger_enter.
  - intros. by eapply ledger_idle.
  - intros. by eapply ledger_flush.
  - intros _. exists [Firestore StreamUsers], []. by apply Hboot.
  - intros _ n T HT%notifications_calm. exists (Firestore StreamUsers :: T).
    specialize (Hboot (Firestore StreamUsers :: T)).
    rewrite app_nil_r in Hboot. apply Hboot.
    change (Firestore StreamUsers :: T) with ([Firestore StreamUsers] ++ T).
    by rewrite notifications_app, HT.
  - destruct (run_cycle env db) as [[[]|e] w]; simpl.
    + destruct H as (T & Hacc). exists []. rewrite app_nil_r.
      assert (T = trace w) as -> by by destruct Hacc as [-> _].
      done.
    + destruct H as (T & B & Hacc). exists B.
      assert (T = trace w) as -> by by destruct Hacc as [-> _].
      split; [done|]. intros a [=].
Qed.

(** ** Consequences of the ledger *)

Lemma records_app jid db B :
  records jid (db ++ B) = records jid db ++ records jid B.
Proof. apply filter_app. Qed.

Lemma records_NoDup jid B :
  NoDup (job_id <$> B) → length (records jid B) ≤ 1.
Proof.
  intros Hnd.
  destruct (records jid B) as [|d1 [|d2 rest]] eqn:E; simpl; [lia..|].
  exfalso. unfold records in E.
  induction B as [|d B IH]; [done|].
  rewrite fmap_cons, NoDup_cons in Hnd. destruct Hnd as [Hd Hnd].
  rewrite filter_cons in E. destruct (decide (job_id d = jid)) as [Hjid|].
  - injection E as -> E.
    assert (d2 ∈ filter (λ d, job_id d = jid) B) as [Hid Hin]%list_elem_of_filter
      by (rewrite E; left).
    apply Hd. rewrite Hjid, <- Hid. by apply list_elem_of_fmap_2.
  - by apply IH.
Qed.

Lemma fresh_block_records db B jid :
  fresh_block db B →
  length (records jid (db ++ B)) ≤ Nat.max 1 (length (records jid db)).
Proof.
  intros [Hnd Hfr]. rewrite records_app, length_app.
  destruct (records jid db) as [|d ?] eqn:Hdb.
  - pose proof (records_NoDup jid B Hnd). simpl. lia.
  - assert (records jid B = []) as ->; [|simpl; lia].
    destruct (records jid B) as [|d' ?] eqn:HB; [done|].
    assert (d' ∈ records jid B) as [Hid Hin]%list_elem_of_filter
      by (rewrite HB; left).
    destruct (Hfr d' Hin). rewrite Hid.
    destruct (decide (jid ∈ job_id <$> db)) as [|Hno]; [done|].
    apply records_nil in Hno. by rewrite Hdb in Hno.
Qed.

Lemma store_after_records env db jid :
  length (records jid (store_after env db))
  ≤ Nat.max 1 (length (records jid db)).
Proof.
  destruct (cycle_ledger env db) as (B & (_ & Hdb & Hfr & _) & _).
  unfold store_after. rewrite Hdb. by apply fresh_block_records.
Qed.

Lemma store_after_grows env db : ∃ B, store_after env db = db ++ B.
Proof.
  destruct (cycle_ledger env db) as (B & (_ & Hdb & _) & _).
  unfold store_after. eauto.
Qed.

Lemma run_cycles_grows envs db : ∃ B, run_cycles envs db = db ++ B.
Proof.
  revert db. induction envs as [|env envs IH]; intros db; simpl.
  - exists []. by rewrite app_nil_r.
  - destruct (store_after_grows env db) as [B1 E1].
    destruct (IH (store_after env db)) as [B2 E2].
    exists (B1 ++ B2). unfold run_cycles in *. rewrite E2, E1.
    by rewrite app_assoc.
Qed.

Lemma run_cycles_records envs db jid :
  length (records jid (run_cycles envs db))
  ≤ Nat.max 1 (length (records jid db)).
Proof.
  revert db. induction envs as [|env envs IH]; intros db; simpl; [lia|].
  unfold run_cycles in *. etrans; [apply IH|].
  pose proof (store_after_records env db jid). lia.
Qed.

Lemma notified_not_stored_before env db e n L j :
  (e, n, L) ∈ notifications (trace (run_cycle env db).2) → j ∈ L →
  job_id j ∉ job_id <$> db.
Proof.
  intros HN Hj.
  destruct (cycle_ledger env db) as (B & (_ & _ & [_ Hfr] & _) & _).
  apply Hfr. apply elem_of_app. left. unfold notified_jobs.
  apply list_elem_of_bind. by exists (e, n, L).
Qed.

(** ** Failures of Firestore *)

Section Faults.
Context (env : environment).

Lemma healthy_step w n :
  healthy env w → firestore_fails env (firestore_calls w) = false →
  n = S (firestore_calls w) →
  ∀ m, m < n → firestore_fails env m = false.
Proof.
  intros Hw Hf -> m Hm. destruct (decide (m = firestore_calls w)) as [->|].
  - done.
  - apply Hw. lia.
Qed.

Lemma faults_check p j :
  hoare (healthy env) (check_job env p j) (λ _, healthy env) (crashed env).
Proof.
  intros w Hw. rewrite check_job_run.
  destruct (firestore_fails env (firestore_calls w)) eqn:F1.
  { split_and!; [done|by eexists _, _|]. by exists (firestore_calls w). }
  pose proof (healthy_step w _ Hw F1 eq_refl) as Hw1.
  destruct (records (job_id j) (jobs_coll w)); [|exact Hw1].
  destruct (firestore_fails env (S (firestore_calls w))) eqn:F2.
  { split_and!; [done| |by exists (S (firestore_calls w))].
    eexists (trace w ++ [_]), _. done. }
  intros m Hm. simpl in Hm.
  destruct (decide (m = S (firestore_calls w))) as [->|]; [done|].
  apply Hw1. lia.
Qed.

Lemma cycle_faults db :
  match run_cycle env db with
  | (Returned _, w) => healthy env w
  | (Raised e, w) => crashed env e w
  end.
Proof.
  pose proof (cycle_rule env db (λ _ _ _, healthy env) (λ _, healthy env)
                (crashed env))
    as H.
  simpl in H. ospecialize* H; try done.
  - intros. apply faults_check.
  - intros F0. split_and!; [done|by exists [], StreamUsers|].
    exists 0. split_and!; [done..|]. intros m Hm. lia.
  - intros F0 n T _ m Hm. simpl in Hm. by replace m with 0 by lia.
Qed.

End Faults.

(** ** Progress when Firestore does not fail *)

Lemma progress_check env v p j :
  no_firestore_failure env →
  hoare (seen v) (check_job env p j) (λ _, seen (v ++ [j])) never_raised.
Proof.
  intros Hok w Hw. rewrite check_job_run, !Hok.
  destruct (records (job_id j) (jobs_coll w)) as [|d ?] eqn:Hrec.
  - intros j' [Hj'| ->%list_elem_of_singleton]%elem_of_app; simpl.
    + rewrite fmap_app. apply elem_of_app. left. by apply Hw.
    + rewrite fmap_app. apply elem_of_app. right. simpl. left.
  - intros j' [Hj'| ->%list_elem_of_singleton]%elem_of_app; simpl.
    + by apply Hw.
    + destruct (decide (job_id j ∈ job_id <$> jobs_coll w)) as [|Hno]; [done|].
      apply records_nil in Hno. by rewrite Hrec in Hno.
Qed.

Lemma hoare_and {A} (m : M A) (P1 P2 : world → Prop)
  (Q1 Q2 : A → world → Prop) (E1 E2 : exn → world → Prop) :
  hoare P1 m Q1 E1 → hoare P2 m Q2 E2 →
  hoare (λ w, P1 w ∧ P2 w) m (λ a w, Q1 a w ∧ Q2 a w) (λ e w, E1 e w ∧ E2 e w).
Proof.
  intros H1 H2 w [Hw1 Hw2]. specialize (H1 w Hw1). specialize (H2 w Hw2).
  by destruct (m w) as [[a|e] w'].
Qed.

(** A loop over some users, from any world: it returns, the ledger goes
    on from that world, and every posting gone through is in the store. *)
Lemma pass_progress env all_jobs l w :
  no_firestore_failure env →
  ∃ w' T,
    for_each l (process_user env all_jobs) w = (Returned tt, w')
    ∧ accounted all_jobs l (jobs_coll w) (trace w) w' T (notified_jobs T)
    ∧ seen (l ≫= candidates all_jobs) w'.
Proof.
  intros Hok.
  pose proof (pass_rule env all_jobs
    (λ u v p w', in_pass all_jobs l (jobs_coll w) (trace w) u v p w'
                 ∧ seen v w')
    (λ v w', between_users all_jobs l (jobs_coll w) (trace w) v w'
             ∧ seen v w')
    (λ e w', interrupted all_jobs l (jobs_coll w) (trace w) e w'
             ∧ never_raised e w') l) as H.
  simpl in H. ospecialize (H _ _ _ _); last (ospecialize (H w _)).
  - intros. apply hoare_and; [by eapply ledger_check | by apply progress_check].
  - intros u v w0 Hu [? ?]. split; [by apply ledger_enter | done].
  - intros u v w0 n T Hu [? ?] HT. split; [by eapply ledger_idle | done].
  - intros u v p w0 n T Hu Hp [? ?] HT. split; [by eapply ledger_flush | done].
  - split; [|intros j []%elem_of_nil]. exists []. unfold accounted.
    rewrite !app_nil_r. split_and!; [done..| | |].
    + split; [constructor | intros ? []%elem_of_nil].
    + intros ? []%elem_of_nil.
    + intros ??? []%elem_of_nil.
  - destruct (for_each l (process_user env all_jobs) w) as [[[]|e] w'].
    + destruct H as [[T Hacc] Hseen]. by exists w', T.
    + by destruct H as [_ []].
Qed.

Lemma elem_of_notified_jobs T j :
  j ∈ notified_jobs T ↔ ∃ e n L, (e, n, L) ∈ notifications T ∧ j ∈ L.
Proof.
  unfold notified_jobs. rewrite list_elem_of_bind. split.
  - intros ([[e n] L] & ? & ?). by exists e, n, L.
  - intros (e & n & L & ? & ?). by exists (e, n, L).
Qed.

(** A posting whose identifier is in the store after a pass and was not
    before has been handed to the notifier during the pass. *)
Lemma stored_then_notified all_jobs l db0 tr0 w T P :
  accounted all_jobs l db0 tr0 w T (notified_jobs T) →
  job_id P ∈ job_id <$> jobs_coll w → job_id P ∉ job_id <$> db0 →
  ∃ u L j, u ∈ l ∧ (email u, name u, L) ∈ notifications T ∧ j ∈ L
           ∧ job_id j = job_id P ∧ j ∈ candidates all_jobs u.
Proof.
  intros (_ & Hdb & _ & _ & HN) Hin Hout.
  rewrite Hdb, fmap_app, elem_of_app in Hin. destruct Hin as [?|Hin]; [done|].
  apply list_elem_of_fmap in Hin as (j & Hid & Hj).
  apply elem_of_notified_jobs in Hj as (e & n & L & HL & Hj).
  destruct (HN e n L HL) as (u & Hu & <- & <- & Hcand).
  exists u, L, j. split_and!; auto.
Qed.

Lemma cycle_as_pass env db u :
  firestore_fails env 0 = false → u ∈ to_user <$> users_coll env →
  ∃ n T,
    calm T
    ∧ (∀ c t, (c, t) ∈ COMPANIES env → Scraped c t ∈ T)
    ∧ run_cycle env db
      = for_each (to_user <$> users_coll env)
          (process_user env (snapshot env))
          (World db 1 n (Firestore StreamUsers :: T)).
Proof.
  intros F0 Hu. pose proof (scrape_jobs_run env (boot db)) as H.
  simpl in H. rewrite F0 in H.
  destruct (to_user <$> users_coll env) as [|u0 us]; [by apply elem_of_nil in Hu|].
  exact H.
Qed.

(** Without a Firestore failure, a posting that is new to the store and
    returned for an employer somebody follows is handed to the notifier
    before the run is over. *)
Lemma fresh_posting_notified env db u c jobs P :
  no_firestore_failure env →
  u ∈ to_user <$> users_coll env → c ∈ companies u →
  snapshot env !! c = Some jobs → P ∈ jobs →
  job_id P ∉ job_id <$> db →
  ∃ w, run_cycle env db = (Returned tt, w)
       ∧ job_id P ∈ job_id <$> jobs_coll w
       ∧ ∃ u' L j, u' ∈ to_user <$> users_coll env
                   ∧ (email u', name u', L) ∈ notifications (trace w)
                   ∧ j ∈ L ∧ job_id j = job_id P.
Proof.
  intros Hok Hu Hc Hjobs HP Hnew.
  destruct (cycle_as_pass env db u (Hok 0) Hu) as (n & T0 & HT0 & _ & ->).
  destruct (pass_progress env (snapshot env) (to_user <$> users_coll env)
              (World db 1 n (Firestore StreamUsers :: T0)) Hok)
    as (w & T & -> & Hacc & Hseen).
  assert (job_id P ∈ job_id <$> jobs_coll w) as Hin.
  { apply Hseen. apply list_elem_of_bind. exists u. split; [|done].
    by eapply elem_of_candidates. }
  exists w. split_and!; [done..|].
  destruct (stored_then_notified _ _ _ _ _ _ P Hacc Hin Hnew)
    as (u' & L & j & ? & HL & ? & ? & _).
  exists u', L, j. split_and!; [done| |done..].
  destruct Hacc as (-> & _). rewrite notifications_app.
  apply elem_of_app. by right.
Qed.

(** The subscriber who gets it is the first, in the order of the
    ['users'] collection, whose pass meets the identifier. *)
Lemma first_subscriber_notified env db us1 u us2 P :
  no_firestore_failure env →
  to_user <$> users_coll env = us1 ++ u :: us2 →
  P ∈ candidates (snapshot env) u →
  job_id P ∉ job_id <$> db →
  (∀ u' j, u' ∈ us1 → j ∈ candidates (snapshot env) u' →
           job_id j ≠ job_id P) →
  ∃ w L j, run_cycle env db = (Returned tt, w)
           ∧ (email u, name u, L) ∈ notifications (trace w)
           ∧ j ∈ L ∧ job_id j = job_id P ∧ j ∈ candidates (snapshot env) u.
Proof.
  intros Hok Hus HP Hnew Hearlier.
  destruct (cycle_as_pass env db u (Hok 0)) as (n & T0 & HT0 & _ & ->).
  { rewrite Hus. apply elem_of_app. right. left. }
  rewrite Hus. set (w0 := World db 1 n (Firestore StreamUsers :: T0)).
  destruct (pass_progress env (snapshot env) us1 w0 Hok)
    as (w1 & T1 & E1 & Hacc1 & _).
  destruct (pass_progress env (snapshot env) [u] w1 Hok)
    as (w2 & T2 & E2 & Hacc2 & Hseen2).
  destruct (pass_progress env (snapshot env) us2 w2 Hok)
    as (w3 & T3 & E3 & Hacc3 & _).
  assert (for_each (us1 ++ u :: us2) (process_user env (snapshot env)) w0
          = (Returned tt, w3)) as ->.
  { unfold for_each in *. rewrite foldM_app. unfold bind. rewrite E1.
    change (u :: us2) with ([u] ++ us2). rewrite foldM_app. unfold bind.
    by rewrite E2. }
  assert (job_id P ∉ job_id <$> jobs_coll w1) as Hnew1.
  { destruct Hacc1 as (_ & -> & _ & HB & _). rewrite fmap_app, elem_of_app.
    intros [?|Hin]; [done|].
    apply list_elem_of_fmap in Hin as (j & Hid & Hj).
    destruct (HB j Hj) as (u' & Hu' & Hcand). by eapply Hearlier. }
  assert (job_id P ∈ job_id <$> jobs_coll w2) as Hin2.
  { apply Hseen2. simpl. rewrite app_nil_r. done. }
  destruct (stored_then_notified _ _ _ _ _ _ P Hacc2 Hin2 Hnew1)
    as (u' & L & j & ->%list_elem_of_singleton & HL & Hj & Hid & Hcand).
  exists w3, L, j. split_and!; [done| |done..].
  destruct Hacc3 as (-> & _). destruct Hacc2 as (-> & _).
  rewrite !notifications_app. apply elem_of_app. left.
  apply elem_of_app. by right.
Qed.

(** No identifier is handed to the notifier twice in one run. *)
Lemma notified_ids_NoDup env db :
  NoDup (job_id <$> notified_jobs (trace (run_cycle env db).2)).
Proof.
  destruct (cycle_ledger env db) as (B & (_ & _ & [Hnd _] & _) & _).
  rewrite fmap_app in Hnd. by apply NoDup_app in Hnd as [? _].
Qed.

(** ** Two runs that differ by the SMTP server only *)

Lemma agree_ret {A} (a : A) : agree (ret a) (ret a).
Proof. by intros w w' H. Qed.

Lemma agree_bind {A B} (m m' : M A) (f f' : A → M B) :
  agree m m' → (∀ a, agree (f a) (f' a)) → agree (bind m f) (bind m' f').
Proof.
  intros Hm Hf w w' Hw. unfold bind. destruct (Hm w w' Hw) as [Ho Hw'].
  destruct (m w) as [[a|e] w1], (m' w') as [[a'|e'] w1']; simplify_eq/=.
  - by apply Hf.
  - done.
Qed.

Lemma agree_foldM {A B} (f f' : B → A → M B) (l : list A) (b : B) :
  (∀ b x, agree (f b x) (f' b x)) → agree (foldM f l b) (foldM f' l b).
Proof.
  intros Hf. revert b. induction l as [|x l IH]; intros b; simpl.
  - apply agree_ret.
  - apply agree_bind; [apply Hf | apply IH].
Qed.

Lemma agree_emit ev : agree (emit ev) (emit ev).
Proof.
  intros w w' (Hdb & Hn & Htr). unfold alike. simpl.
  by rewrite !filter_app, Htr.
Qed.

Lemma agree_firestore env env' op :
  firestore_fails env = firestore_fails env' →
  agree (firestore env op) (firestore env' op).
Proof.
  intros Hf w w' (Hdb & Hn & Htr). rewrite !firestore_run, Hf, Hn.
  split; [done|]. unfold alike. simpl. by rewrite !filter_app, Htr, Hn.
Qed.

Lemma agree_check_job env env' p j :
  firestore_fails env = firestore_fails env' →
  agree (check_job env p j) (check_job env' p j).
Proof.
  intros Hf. unfold check_job, jobs_where_job_id, jobs_add.
  apply agree_bind.
  - apply agree_bind; [by apply agree_firestore|].
    intros [] w w' Hw. unfold gets. simpl. split; [|done].
    by destruct Hw as (-> & _).
  - intros [|d ?]; [|apply agree_ret].
    apply agree_bind; [|intros; apply agree_ret].
    apply agree_bind; [by apply agree_firestore|].
    intros [] w w' (Hdb & Hn & Htr). unfold alike. simpl. by rewrite Hdb.
Qed.

Lemma agree_send_email_notification env env' e n jobs :
  agree (send_email_notification env e n jobs)
        (send_email_notification env' e n jobs).
Proof.
  intros w w' (Hdb & Hn & Htr). rewrite !send_email_notification_run.
  split; [done|]. unfold alike. simpl. rewrite !filter_app, Htr. simpl.
  by destruct (smtp_fails env _), (smtp_fails env' _).
Qed.

Lemma agree_process_user env env' all_jobs u :
  firestore_fails env = firestore_fails env' →
  agree (process_user env all_jobs u) (process_user env' all_jobs u).
Proof.
  intros Hf. unfold process_user. apply agree_bind.
  - apply agree_foldM. intros p c. unfold check_company.
    destruct (all_jobs !! c); [|apply agree_ret].
    apply agree_foldM. intros. by apply agree_check_job.
  - intros [|j p]; [apply agree_emit|].
    apply agree_bind; [apply agree_send_email_notification|]. intros _.
    apply agree_emit.
Qed.

Lemma agree_scrape_all env env' :
  COMPANIES env = COMPANIES env' → greenhouse env = greenhouse env' →
  agree (scrape_all env) (scrape_all env').
Proof.
  intros HC HG. unfold scrape_all. rewrite <- HC.
  apply agree_foldM. intros m [c t].
  unfold scrape_company, scrape_greenhouse_jobs. simpl.
  apply agree_bind; [apply agree_emit|]. intros _.
  apply agree_bind; [|intros; apply agree_ret].
  apply agree_bind; [apply agree_emit|]. intros _. rewrite <- HG.
  destruct (greenhouse env c t); [apply agree_ret|].
  apply agree_bind; [apply agree_emit | intros; apply agree_ret].
Qed.

Lemma agree_scrape_jobs env f :
  agree (scrape_jobs env) (scrape_jobs (with_smtp f env)).
Proof.
  unfold scrape_jobs. apply agree_bind.
  - unfold get_user_preferences.
    apply agree_bind; [by apply agree_firestore | intros; apply agree_ret].
  - intros [|u us]; [apply agree_emit|].
    apply agree_bind; [by apply agree_scrape_all|]. intros all_jobs.
    apply agree_foldM. intros _ u'. by apply agree_process_user.
Qed.

Lemma notifications_outside_smtp T :
  notifications (filter outside_smtp T) = notifications T.
Proof.
  induction T as [|ev T IH]; [done|].
  rewrite filter_cons. destruct (decide (outside_smtp ev)) as [|Hno].
  - change (ev :: filter outside_smtp T)
      with ([ev] ++ filter outside_smtp T).
    change (ev :: T) with ([ev] ++ T). by rewrite !notifications_app, IH.
  - change (ev :: T) with ([ev] ++ T). rewrite notifications_app, IH.
    destruct ev as [[]| | | |]; simpl in *; tauto.
Qed.

(** ** The order of the HTML table *)

(** [str_le] is the order of [sorted] on [str]: lexicographic on the
    characters, here on the bytes of the UTF-8 encoding, which gives the
    same order as the code points do. *)
Lemma string_leb_cons (x y : ascii) (a b : string) :
  String.leb (String x a) (String y b)
  = match Ascii.compare x y with
    | Eq => String.leb a b
    | Lt => true
    | Gt => false
    end.
Proof.
  unfold String.leb. simpl. by destruct (Ascii.compare x y).
Qed.

Lemma string_leb_trans (a b c : string) :
  String.leb a b = true → String.leb b c = true → String.leb a c = true.
Proof.
  revert b c. induction a as [|x a IH]; intros [|y b] [|z c]; try done.
  rewrite !string_leb_cons. unfold Ascii.compare.
  destruct (N.compare_spec (N_of_ascii x) (N_of_ascii y)) as [Hxy|Hxy|Hxy];
    [|..|done];
    (destruct (N.compare_spec (N_of_ascii y) (N_of_ascii z)) as [Hyz|Hyz|Hyz];
      [|..|done]);
    destruct (N.compare_spec (N_of_ascii x) (N_of_ascii z)) as [Hxz|Hxz|Hxz];
    try done; try lia.
  apply IH.
Qed.

#[global] Instance str_le_total : Total str_le.
Proof.
  intros a b. unfold str_le.
  destruct (String.leb_total a b) as [->| ->]; [by left | by right].
Qed.

#[global] Instance str_le_trans : Transitive str_le.
Proof.
  intros a b c Hab%Is_true_true Hbc%Is_true_true. apply Is_true_true.
  by eapply string_leb_trans.
Qed.

#[global] Instance str_le_antisym : AntiSymm (=) str_le.
Proof.
  intros a b Hab%Is_true_true Hba%Is_true_true. by apply String.leb_antisym.
Qed.

Lemma group_by_company_snoc jobs j :
  group_by_company (jobs ++ [j]) = group_step (group_by_company jobs) j.
Proof. unfold group_by_company. by rewrite foldl_snoc. Qed.

(** [companies[c]] holds the jobs of [c], in the order of [jobs]. *)
Lemma group_by_company_lookup jobs c :
  group_by_company jobs !! c
  = match filter (λ j, company j = c) jobs with
    | [] => None
    | L => Some L
    end.
Proof.
  induction jobs as [|j jobs IH] using rev_ind; [done|].
  rewrite group_by_company_snoc, filter_app. unfold group_step.
  rewrite filter_cons, filter_nil.
  destruct (decide (company j = c)) as [->|Hne].
  - rewrite lookup_insert_eq, IH.
    by destruct (filter (λ j0, company j0 = c) jobs).
  - rewrite lookup_insert_ne, IH, app_nil_r; done.
Qed.

Lemma group_by_company_dom jobs c :
  c ∈ dom (group_by_company jobs) ↔ ∃ j, j ∈ jobs ∧ company j = c.
Proof.
  rewrite elem_of_dom, group_by_company_lookup. split.
  - intros [L HL].
    destruct (filter (λ j, company j = c) jobs) as [|j ?] eqn:E; [done|].
    assert (j ∈ filter (λ j, company j = c) jobs) as [? ?]%list_elem_of_filter
      by (rewrite E; left).
    by exists j.
  - intros (j & Hj & Hc).
    assert (j ∈ filter (λ j, company j = c) jobs) as Hin
      by by apply list_elem_of_filter.
    destruct (filter (λ j, company j = c) jobs); [|done].
    by apply elem_of_nil in Hin.
Qed.

Lemma StronglySorted_strict {A} (R : relation A) (l : list A) :
  StronglySorted R l → NoDup l → StronglySorted (λ a b, R a b ∧ a ≠ b) l.
Proof.
  induction 1 as [|a l Hl IH Ha]; intros Hnd; [constructor|].
  apply NoDup_cons in Hnd as [Hin Hnd]. constructor; [by apply IH|].
  rewrite Forall_forall in Ha |- *. intros b Hb. split; [by apply Ha|].
  intros ->. done.
Qed.

Lemma sorted_groups_spec jobs :
  StronglySorted (λ g h : string * list job, str_lt g.1 h.1)
                 (sorted_groups jobs)
  ∧ (∀ c L, (c, L) ∈ sorted_groups jobs →
       L ≠ [] ∧ L = filter (λ j, company j = c) jobs)
  ∧ (∀ j, j ∈ jobs → ∃ L, (company j, L) ∈ sorted_groups jobs ∧ j ∈ L).
Proof.
  unfold sorted_groups.
  set (groups := group_by_company jobs).
  set (keys := merge_sort str_le (elements (dom groups))).
  assert (∀ c, c ∈ keys ↔ ∃ j, j ∈ jobs ∧ company j = c) as Hkeys.
  { intros c. unfold keys. rewrite merge_sort_Permutation, elem_of_elements.
    apply group_by_company_dom. }
  assert (∀ c, c ∈ keys →
            groups !!! c = filter (λ j, company j = c) jobs
            ∧ groups !!! c ≠ []) as Hgroup.
  { intros c (j & Hj & Hc)%Hkeys.
    assert (j ∈ filter (λ j, company j = c) jobs) as Hin
      by by apply list_elem_of_filter.
    rewrite lookup_total_alt. unfold groups.
    rewrite group_by_company_lookup.
    destruct (filter (λ j, company j = c) jobs); [|done].
    by apply elem_of_nil in Hin. }
  split_and!.
  - apply (StronglySorted_fmap _ (λ a b, str_le a b ∧ a ≠ b)); [done|].
    apply StronglySorted_strict.
    + apply StronglySorted_merge_sort; apply _.
    + unfold keys. rewrite merge_sort_Permutation. apply NoDup_elements.
  - intros c L (c' & [= -> ->] & Hc)%list_elem_of_fmap.
    destruct (Hgroup c' Hc) as [HL Hne]. by rewrite <- HL.
  - intros j Hj. exists (groups !!! company j).
    assert (company j ∈ keys) as Hk by (apply Hkeys; by exists j).
    split.
    + apply list_elem_of_fmap. by exists (company j).
    + destruct (Hgroup _ Hk) as [-> _]. by apply list_elem_of_filter.
Qed.

(** ** The dict [all_jobs] *)

Section Snapshot.
Context (env : environment).

Lemma scraped_other l m0 c : c ∉ l.*1 → scraped env l m0 !! c = m0 !! c.
Proof.
  revert m0. induction l as [|[c1 t1] l IH]; intros m0 Hc; [done|].
  simpl in *. rewrite not_elem_of_cons in Hc. destruct Hc as [Hne Hc].
  rewrite IH by done. by rewrite lookup_insert_ne.
Qed.

Lemma scraped_Some l m0 c jobs :
  scraped env l m0 !! c = Some jobs →
  m0 !! c = Some jobs ∨ ∃ t, (c, t) ∈ l ∧ jobs = fetch env c t.
Proof.
  revert m0. induction l as [|[c1 t1] l IH]; intros m0 H; [by left|].
  simpl in H. apply IH in H as [H|(t & Ht & ->)].
  - destruct (decide (c1 = c)) as [->|Hne].
    + rewrite lookup_insert_eq in H. injection H as <-.
      right. exists t1. split; [left | done].
    + rewrite lookup_insert_ne in H by done. by left.
  - right. exists t. split; [by right | done].
Qed.

Lemma scraped_in l m0 c t :
  NoDup l.*1 → (c, t) ∈ l → scraped env l m0 !! c = Some (fetch env c t).
Proof.
  revert m0. induction l as [|[c1 t1] l IH]; intros m0 Hnd Hin.
  { by apply elem_of_nil in Hin. }
  simpl in *. apply NoDup_cons in Hnd as [Hc1 Hnd].
  apply elem_of_cons in Hin as [[= -> ->]|Hin].
  - rewrite scraped_other by done. apply lookup_insert_eq.
  - by apply IH.
Qed.

(** Every list of [all_jobs] is what one configured page gave. *)
Lemma snapshot_Some c jobs :
  snapshot env !! c = Some jobs →
  ∃ t, (c, t) ∈ COMPANIES env ∧ jobs = fetch env c t.
Proof.
  intros H. apply scraped_Some in H as [H|H]; [|done].
  by rewrite lookup_empty in H.
Qed.

(** [COMPANIES] is a dict: its keys are distinct. *)
Lemma snapshot_in c t :
  NoDup (COMPANIES env).*1 → (c, t) ∈ COMPANIES env →
  snapshot env !! c = Some (fetch env c t).
Proof. apply scraped_in. Qed.

End Snapshot.

(** The trace of a pass only grows. *)
Lemma pass_trace_grows env all_jobs l w :
  ∃ T, trace (for_each l (process_user env all_jobs) w).2 = trace w ++ T.
Proof.
  set (grown := λ w' : world, ∃ T, trace w' = trace w ++ T).
  pose proof (pass_rule env all_jobs (λ _ _ _, grown) (λ _, grown)
                (λ _, grown) l) as H.
  simpl in H. ospecialize (H _ _ _ _); last (ospecialize (H w _)).
  - intros u c js j v p _ _ _ _ w0 [T HT]. rewrite check_job_run.
    destruct (firestore_fails env (firestore_calls w0));
      [|destruct (records (job_id j) (jobs_coll w0));
        [destruct (firestore_fails env (S (firestore_calls w0)))|]];
      unfold grown; simpl; rewrite HT, <- ?app_assoc; eauto.
  - done.
  - intros u v w0 n T _ [T0 HT0] _. exists (T0 ++ T). simpl.
    by rewrite HT0, <- app_assoc.
  - intros u v p w0 n T _ _ [T0 HT0] _. eexists (T0 ++ _ :: T). simpl.
    by rewrite HT0, <- app_assoc.
  - exists []. by rewrite app_nil_r.
  - by destruct (for_each l (process_user env all_jobs) w) as [[[]|e] w'].
Qed.

(** With at least one user, every configured page is requested. *)
Lemma every_page_requested env db c t :
  firestore_fails env 0 = false → users_coll env ≠ [] →
  (c, t) ∈ COMPANIES env →
  Scraped c t ∈ trace (run_cycle env db).2.
Proof.
  intros F0 Hus Hin.
  destruct (to_user <$> users_coll env) as [|u us] eqn:Eus.
  { by destruct (users_coll env). }
  destruct (cycle_as_pass env db u F0) as (n & T & _ & HS & ->).
  { rewrite Eus. left. }
  destruct (pass_trace_grows env (snapshot env) (to_user <$> users_coll env)
              (World db 1 n (Firestore StreamUsers :: T))) as [T' ->].
  simpl. right. apply elem_of_app. left. by apply HS.
Qed.

(** * The properties of the cycle *)

(** The scenario of the specification: Acme returns one posting, Globex
    none; [s1] follows Acme, [s2] follows Globex; the store is empty. *)
Example concrete_scenario :
  let env := Sample.one_each (Fetched [Sample.a1]) (Fetched []) Sample.never in
  (run_cycle env []).1 = Returned tt
  ∧ store_after env [] = [Sample.a1]
  ∧ notifications (trace (run_cycle env []).2)
    = [(Some "s1@example.org", Some "s1", [Sample.a1])].
Proof. by vm_compute. Qed.

(** ** First subscriber wins *)

(** C1, as stated, fails: with two subscribers of Acme and one new
    posting of Acme, the first pass stores the posting and is notified;
    the second pass finds it in the store and gets nothing. *)
Lemma second_subscriber_not_notified :
  no_firestore_failure Sample.shared
  ∧ notifications (trace (run_cycle Sample.shared []).2)
    = [(Some "s1@example.org", Some "s1", [Sample.a1])]
  ∧ ¬ every_follower_notified Sample.shared [].
Proof.
  split_and!; [done | by vm_compute |].
  intros H.
  destruct (H Sample.s2 "Acme" [Sample.a1] Sample.a1) as (L & HL & _);
    [compute_done..|].
  vm_compute in HL. inversion HL as [|??? Hnil]. inversion Hnil.
Qed.

(** C1, amended: without a Firestore failure, a posting [P] with a new
    identifier, returned for an employer that [u] follows, is handed to
    the notifier for [u] when no subscriber processed before [u] meets
    that identifier; it is then in the [user_new_jobs] of nobody else,
    and it is stored once. *)
Theorem first_subscriber_wins env db us1 u us2 c jobs P :
  no_firestore_failure env →
  to_user <$> users_coll env = us1 ++ u :: us2 →
  c ∈ companies u → snapshot env !! c = Some jobs → P ∈ jobs →
  job_id P ∉ job_id <$> db →
  (∀ u' j, u' ∈ us1 → j ∈ candidates (snapshot env) u' →
           job_id j ≠ job_id P) →
  (∀ j, j ∈ candidates (snapshot env) u → job_id j = job_id P → j = P) →
  ∃ w L,
    run_cycle env db = (Returned tt, w)
    ∧ (email u, name u, L) ∈ notifications (trace w) ∧ P ∈ L
    ∧ records (job_id P) (notified_jobs (trace w)) = [P]
    ∧ records (job_id P) (jobs_coll w) = [P].
Proof.
  intros Hok Hus Hc Hjobs HP Hnew Hearlier Huniq.
  assert (P ∈ candidates (snapshot env) u) as Hcand
    by by eapply elem_of_candidates.
  destruct (first_subscriber_notified env db us1 u us2 P)
    as (w & L & j & Hrun & HL & Hj & Hid & Hjc); [done..|].
  apply Huniq in Hid as ->; [|done].
  exists w, L. split_and!; [done..| |].
  - pose proof (notified_ids_NoDup env db) as Hnd. rewrite Hrun in Hnd.
    simpl in Hnd. apply (records_NoDup (job_id P)) in Hnd.
    assert (P ∈ records (job_id P) (notified_jobs (trace w))) as Hin.
    { apply list_elem_of_filter. split; [done|].
      apply elem_of_notified_jobs. by exists (email u), (name u), L. }
    destruct (records (job_id P) (notified_jobs (trace w))) as [|d [|??]];
      simpl in Hnd; [by apply elem_of_nil in Hin| |lia].
    by apply list_elem_of_singleton in Hin as ->.
  - destruct (cycle_ledger env db) as (B & (_ & Hdb & Hfr & _) & HB).
    rewrite Hrun in Hdb, Hfr, HB. simpl in *.
    pose proof (fresh_block_records db _ (job_id P) Hfr) as Hlen.
    rewrite <- Hdb in Hlen.
    assert (records (job_id P) db = []) as Hnone by by apply records_nil.
    rewrite Hnone in Hlen. simpl in Hlen.
    assert (P ∈ records (job_id P) (jobs_coll w)) as Hin.
    { apply list_elem_of_filter. split; [done|]. rewrite Hdb.
      apply elem_of_app. right. apply elem_of_app. left.
      apply elem_of_notified_jobs. by exists (email u), (name u), L. }
    destruct (records (job_id P) (jobs_coll w)) as [|d [|??]];
      simpl in Hlen; [by apply elem_of_nil in Hin| |lia].
    by apply list_elem_of_singleton in Hin as ->.
Qed.

Lemma first_subscriber_wins_witness :
  ∃ w L,
    run_cycle Sample.shared [] = (Returned tt, w)
    ∧ (email Sample.s1, name Sample.s1, L) ∈ notifications (trace w)
    ∧ Sample.a1 ∈ L
    ∧ records "a1" (notified_jobs (trace w)) = [Sample.a1]
    ∧ records "a1" (jobs_coll w) = [Sample.a1].
Proof.
  apply (first_subscriber_wins Sample.shared [] [] Sample.s1 [Sample.s2]
           "Acme" [Sample.a1] Sample.a1).
  - intros n. reflexivity.
  - reflexivity.
  - compute_done.
  - compute_done.
  - compute_done.
  - compute_done.
  - intros u' j H. inversion H.
  - intros j H _. vm_compute in H. inversion H as [|??? Hnil]; [done|].
    inversion Hnil.
Defined.

(** ** No duplicate storage *)

(** C2: whatever the runs and whatever fails in them, an identifier
    that had at most one record keeps at most one; from the empty store
    every identifier has at most one. A posting is added only when the
    existence check came back empty. *)
Theorem no_duplicate_storage (envs : list environment) (db : list job)
  (jid : string) :
  length (records jid (run_cycles envs db))
    ≤ Nat.max 1 (length (records jid db))
  ∧ length (records jid (run_cycles envs [])) ≤ 1
  ∧ ∀ env p j w,
      records (job_id j) (jobs_coll w) ≠ [] →
      jobs_coll (check_job env p j w).2 = jobs_coll w.
Proof.
  split_and!.
  - apply run_cycles_records.
  - apply (run_cycles_records envs [] jid).
  - intros env p j w Hrec. rewrite check_job_run.
    destruct (firestore_fails env (firestore_calls w)); [done|].
    by destruct (records (job_id j) (jobs_coll w)).
Qed.

(** ** At most one notification per insert *)

(** C3: a posting that is in the store when a run ends is in no
    [user_new_jobs] handed to the notifier in any later run, whatever
    the career pages return then; wherever the store holds its
    identifier, lines 58-63 leave [user_new_jobs] as it is. *)
Theorem notified_only_when_inserted env db P envs env' e n L :
  P ∈ store_after env db →
  (e, n, L) ∈ notifications
                (trace (run_cycle env' (run_cycles envs (store_after env db))).2) →
  (P ∉ L)
  ∧ (∀ j, j ∈ L → job_id j ≠ job_id P)
  ∧ (∀ env'' p j w a w',
       job_id j = job_id P → P ∈ jobs_coll w →
       check_job env'' p j w = (Returned a, w') → a = p).
Proof.
  intros HP HL.
  assert (∀ j, j ∈ L → job_id j ≠ job_id P) as H.
  { intros j Hj Hid.
    eapply notified_not_stored_before; [exact HL | exact Hj |].
    rewrite Hid. apply list_elem_of_fmap_2.
    destruct (run_cycles_grows envs (store_after env db)) as [B ->].
    apply elem_of_app. by left. }
  split_and!; [|done|].
  - intros HPL. by apply (H P HPL).
  - intros env'' p j w a w' Hid Hin. rewrite check_job_run.
    destruct (firestore_fails env'' (firestore_calls w)); [done|].
    destruct (records (job_id j) (jobs_coll w)) eqn:Hrec; [|by intros [= <-]].
    apply records_nil in Hrec. destruct Hrec. rewrite Hid.
    by apply list_elem_of_fmap_2.
Qed.

Lemma notified_only_when_inserted_witness :
  (Sample.a1 ∉ [Sample.a2])
  ∧ (∀ j, j ∈ [Sample.a2] → job_id j ≠ "a1")
  ∧ (∀ env'' p j w a w',
       job_id j = "a1" → Sample.a1 ∈ jobs_coll w →
       check_job env'' p j w = (Returned a, w') → a = p).
Proof.
  apply (notified_only_when_inserted Sample.shared [] Sample.a1
           [Sample.shared] Sample.shared_later
           (Some "s1@example.org") (Some "s1") [Sample.a2]).
  - compute_done.
  - compute_done.
Defined.

(** ** The relevance filter *)

(** C4: every list handed to the notifier is handed over for a user of
    the ['users'] collection, and each of its postings was returned for
    a company of that user; when the postings carry the name of the
    company they were scraped for, a user who follows Acme only gets no
    posting of Globex. *)
Theorem relevance_filter env db e n L :
  (e, n, L) ∈ notifications (trace (run_cycle env db).2) →
  ∃ u, u ∈ to_user <$> users_coll env ∧ email u = e ∧ name u = n
       ∧ ∀ P, P ∈ L →
           (∃ c jobs, c ∈ companies u ∧ snapshot env !! c = Some jobs
                      ∧ P ∈ jobs)
           ∧ (tagged env →
                company P ∈ companies u
                ∧ (companies u = ["Acme"] → company P ≠ "Globex")).
Proof.
  intros HL.
  destruct (cycle_ledger env db) as (B & (_ & _ & _ & _ & HN) & _).
  destruct (HN e n L HL) as (u & Hu & He & Hn & Hcand).
  exists u. split_and!; [done..|].
  intros P (c & jobs & Hc & Hjobs & HP)%Hcand%candidates_inv.
  split; [by exists c, jobs|].
  intros Htag. destruct (snapshot_Some env c jobs Hjobs) as (t & _ & ->).
  apply Htag in HP. rewrite HP. split; [done|].
  intros Hcs. rewrite Hcs in Hc. by apply list_elem_of_singleton in Hc as ->.
Qed.

Lemma relevance_filter_witness :
  ∃ u, u ∈ to_user <$> users_coll Sample.shared
       ∧ email u = Some "s1@example.org" ∧ name u = Some "s1"
       ∧ ∀ P, P ∈ [Sample.a1] →
           (∃ c jobs, c ∈ companies u
                      ∧ snapshot Sample.shared !! c = Some jobs ∧ P ∈ jobs)
           ∧ (tagged Sample.shared →
                company P ∈ companies u
                ∧ (companies u = ["Acme"] → company P ≠ "Globex")).
Proof.
  apply (relevance_filter Sample.shared []). compute_done.
Defined.

(** ** No subscribers *)

(** C5: when the ['users'] collection is read and is empty, the run is
    over after one line of log: one call to Firestore (the reading), no
    page scraped, no posting looked up or stored, no mail. *)
Theorem no_users_no_op env db :
  users_coll env = [] → firestore_fails env 0 = false →
  run_cycle env db
  = (Returned tt,
     World db 1 0 [Firestore StreamUsers; Printed NoUsersFound]).
Proof.
  intros Hnone Hok. pose proof (scrape_jobs_run env (boot db)) as H.
  simpl in H. by rewrite Hok, Hnone in H.
Qed.

Lemma no_users_no_op_witness :
  run_cycle Sample.nobody [Sample.g1]
  = (Returned tt,
     World [Sample.g1] 1 0 [Firestore StreamUsers; Printed NoUsersFound]).
Proof.
  apply (no_users_no_op Sample.nobody [Sample.g1]); reflexivity.
Defined.

(** ** A failure of the store *)



(** ** A failure of one career page *)

(** C7: a page that cannot be fetched counts as a page without
    postings; the other pages are in [all_jobs] with what they
    returned, every configured page is requested, the run raises only
    on a failure of Firestore, and without such a failure the new
    postings of the other employers are stored and notified. *)
Theorem failed_scrape_isolated env db c t :
  NoDup (COMPANIES env).*1 → (c, t) ∈ COMPANIES env →
  greenhouse env c t = FetchFailed →
  snapshot env !! c = Some []
  ∧ (∀ c' t', (c', t') ∈ COMPANIES env →
       snapshot env !! c' = Some (fetch env c' t')
       ∧ (firestore_fails env 0 = false → users_coll env ≠ [] →
          Scraped c' t' ∈ trace (run_cycle env db).2))
  ∧ (∀ e, (run_cycle env db).1 = Raised e →
       e = FirestoreError ∧ ∃ n, firestore_fails env n = true)
  ∧ (no_firestore_failure env →
     ∀ u c' jobs P,
       u ∈ to_user <$> users_coll env → c' ∈ companies u →
       snapshot env !! c' = Some jobs → P ∈ jobs →
       job_id P ∉ job_id <$> db →
       ∃ w, run_cycle env db = (Returned tt, w)
            ∧ job_id P ∈ job_id <$> jobs_coll w
            ∧ ∃ u' L j, u' ∈ to_user <$> users_coll env
                        ∧ (email u', name u', L) ∈ notifications (trace w)
                        ∧ j ∈ L ∧ job_id j = job_id P).
Proof.
  intros Hnd Hin Hfail. split_and!.
  - rewrite (snapshot_in env c t Hnd Hin). unfold fetch. by rewrite Hfail.
  - intros c' t' Hin'. split; [by apply snapshot_in|].
    intros F0 Hus. by apply every_page_requested.
  - intros e He. pose proof (cycle_faults env db) as HF.
    destruct (run_cycle env db) as [[[]|e'] w]; [done|].
    injection He as ->. destruct HF as (-> & _ & n & _ & Hn & _). eauto.
  - intros Hok u c' jobs P. by apply fresh_posting_notified.
Qed.

Lemma failed_scrape_isolated_witness :
  let env := Sample.one_each FetchFailed (Fetched [Sample.g1]) Sample.never in
  snapshot env !! "Acme" = Some []
  ∧ snapshot env !! "Globex" = Some [Sample.g1]
  ∧ notifications (trace (run_cycle env []).2)
    = [(Some "s2@example.org", Some "s2", [Sample.g1])].
Proof.
  pose proof (failed_scrape_isolated
                (Sample.one_each FetchFailed (Fetched [Sample.g1]) Sample.never)
                [] "Acme" "acme") as H.
  ospecialize (H _ _ _); [compute_done..|].
  destruct H as (Hacme & Hothers & _).
  split_and!; [exact Hacme | | by vm_compute].
  apply (Hothers "Globex" "globex"). compute_done.
Defined.

(** ** The order of the postings in a notification *)

(** C9, as stated, fails: the postings are handed to the notifier, and
    listed in the plain-text part of the mail, in the order of the
    companies of the user; a user who lists Beta before Alpha reads
    Beta first. *)
Lemma text_part_not_grouped :
  let w := (run_cycle Sample.beta_first []).2 in
  notifications (trace w)
  = [(Some "s1@example.org", Some "s1", [Sample.be; Sample.al])]
  ∧ (∃ m, Smtp m true ∈ trace w
          ∧ tb_company <$> msg_text m = ["Beta"; "Alpha"])
  ∧ ¬ Sorted str_le ["Beta"; "Alpha"].
Proof.
  split_and!.
  - by vm_compute.
  - exists (compose (Some "s1@example.org") (Some "s1") [Sample.be; Sample.al]).
    split; [compute_done | done].
  - intros H. inversion H as [|?? _ Hhd]. inversion Hhd as [|?? Hle].
    vm_compute in Hle. exact Hle.
Qed.

(** C9, amended: the HTML table of the mail has one group per company,
    the companies in strictly ascending order, and each group lists the
    postings of its company in the order in which they were handed to
    the notifier; the plain-text part lists the postings in that
    order, ungrouped. *)
Theorem html_table_grouped (e n : option string) (jobs : list job) :
  msg_html (compose e n jobs)
  = TableHead ::
    flat_map (λ g : string * list job, CompanyHeader g.1 :: (job_row <$> g.2))
             (sorted_groups jobs)
  ∧ msg_text (compose e n jobs) = text_of_job <$> jobs
  ∧ StronglySorted (λ g h : string * list job, str_lt g.1 h.1)
                   (sorted_groups jobs)
  ∧ (∀ c L, (c, L) ∈ sorted_groups jobs →
       L ≠ [] ∧ L = filter (λ j, company j = c) jobs)
  ∧ (∀ j, j ∈ jobs → ∃ L, (company j, L) ∈ sorted_groups jobs ∧ j ∈ L).
Proof. split_and!; [done | done | apply sorted_groups_spec..]. Qed.

(** ** Employers nobody follows *)

(** C10: a posting [P] returned for an employer [E] that no user
    follows, and under no other employer, is not stored by the run,
    although the page of [E] is requested; a later run in which
    somebody follows an employer that returns [P] stores it and hands it
    to the notifier as new. *)
Theorem unfollowed_employer_not_stored env db E t P :
  (E, t) ∈ COMPANIES env → P ∈ fetch env E t →
  (∀ u, u ∈ to_user <$> users_coll env → E ∉ companies u) →
  (∀ c jobs j, snapshot env !! c = Some jobs → j ∈ jobs →
               job_id j = job_id P → c = E) →
  job_id P ∉ job_id <$> db →
  (job_id P ∉ job_id <$> store_after env db)
  ∧ (firestore_fails env 0 = false → users_coll env ≠ [] →
     Scraped E t ∈ trace (run_cycle env db).2)
  ∧ (∀ env' u c jobs,
       no_firestore_failure env' →
       u ∈ to_user <$> users_coll env' → c ∈ companies u →
       snapshot env' !! c = Some jobs → P ∈ jobs →
       ∃ w, run_cycle env' (store_after env db) = (Returned tt, w)
            ∧ job_id P ∈ job_id <$> jobs_coll w
            ∧ ∃ u' L j, u' ∈ to_user <$> users_coll env'
                        ∧ (email u', name u', L) ∈ notifications (trace w)
                        ∧ j ∈ L ∧ job_id j = job_id P).
Proof.
  intros HE HP Hunf Honly Hnew.
  assert (job_id P ∉ job_id <$> store_after env db) as Hafter.
  { destruct (cycle_ledger env db) as (B & (_ & Hdb & _ & HB & _) & _).
    unfold store_after. rewrite Hdb, fmap_app, elem_of_app.
    intros [?|Hin]; [done|].
    apply list_elem_of_fmap in Hin as (j & Hid & Hj).
    destruct (HB j Hj) as (u & Hu & (c & jobs & Hc & Hjobs & Hjin)%candidates_inv).
    apply (Hunf u Hu). by rewrite <- (Honly c jobs j Hjobs Hjin). }
  split_and!; [done| |].
  - intros F0 Hus. by apply every_page_requested.
  - intros env' u c jobs Hok Hu Hc Hjobs HPin.
    by eapply fresh_posting_notified.
Qed.

Lemma unfollowed_employer_not_stored_witness :
  ("g1" ∉ job_id <$> store_after Sample.acme_only [])
  ∧ Scraped "Globex" "globex" ∈ trace (run_cycle Sample.acme_only []).2
  ∧ ∃ w, run_cycle (Sample.one_each (Fetched [Sample.a1])
                      (Fetched [Sample.g1]) Sample.never)
           (store_after Sample.acme_only [])
         = (Returned tt, w)
         ∧ "g1" ∈ job_id <$> jobs_coll w.
Proof.
  pose proof (unfollowed_employer_not_stored Sample.acme_only []
                "Globex" "globex" Sample.g1) as H.
  ospecialize (H _ _ _ _ _).
  - compute_done.
  - compute_done.
  - intros u Hu. change (u ∈ [Sample.s1]) in Hu.
    apply list_elem_of_singleton in Hu as ->. compute_done.
  - intros c jobs j Hjobs Hj Hid.
    destruct (snapshot_Some _ _ _ Hjobs) as (t & Hin & ->).
    change ((c, t) ∈ Sample.config) in Hin. unfold Sample.config in Hin.
    repeat (apply elem_of_cons in Hin as [[= -> ->]|Hin]);
      [..|by apply elem_of_nil in Hin];
      [|done|..];
      (change (j ∈ [Sample.a1]) in Hj || change (j ∈ [Sample.al]) in Hj
       || change (j ∈ [Sample.be]) in Hj);
      apply list_elem_of_singleton in Hj as ->; discriminate Hid.
  - compute_done.
  - destruct H as (Hafter & Hscraped & Hlater).
    split_and!; [exact Hafter | by apply Hscraped; compute_done |].
    destruct (Hlater (Sample.one_each (Fetched [Sample.a1])
                        (Fetched [Sample.g1]) Sample.never)
                (to_user (Sample.doc "s2" ["Globex"])) "Globex" [Sample.g1])
      as (w & Hw & Hin & _); [done | compute_done..|].
    by exists w.
Defined.

(** * Further properties of the script *)

(** ** The loop over the configured pages *)

Lemma scrape_log_cons env c t l :
  scrape_log env ((c, t) :: l)
  = ([Printed (ScrapingFrom c); Scraped c t] ++
     match greenhouse env c t with
     | Fetched _ => []
     | FetchFailed => [Printed (ScrapeFailed c)]
     end) ++ scrape_log env l.
Proof. unfold scrape_log. by rewrite bind_cons. Qed.

Lemma scrape_all_from env l m0 w :
  foldM (scrape_company env) l m0 w
  = (Returned (scraped env l m0),
     World (jobs_coll w) (firestore_calls w) (smtp_sessions w)
           (trace w ++ scrape_log env l)).
Proof.
  revert m0 w. induction l as [|[c t] l IH]; intros m0 w.
  { simpl. unfold ret. rewrite app_nil_r. by destruct w. }
  rewrite scrape_log_cons.
  change (foldM (scrape_company env) ((c, t) :: l) m0 w)
    with (bind (scrape_company env m0 (c, t))
               (foldM (scrape_company env) l) w).
  unfold bind at 1. unfold scrape_company, scrape_greenhouse_jobs, fetch.
  unfold bind, print, emit, modify, ret. simpl.
  destruct (greenhouse env c t) eqn:G; rewrite IH; simpl;
    unfold fetch; rewrite G; by rewrite <- !app_assoc.
Qed.

Lemma scrape_all_run env w :
  scrape_all env w
  = (Returned (snapshot env),
     World (jobs_coll w) (firestore_calls w) (smtp_sessions w)
           (trace w ++ scrape_log env (COMPANIES env))).
Proof. apply scrape_all_from. Qed.

Lemma scrapes_scrape_log env l : scrapes (scrape_log env l) = l.
Proof.
  induction l as [|[c t] l IH]; [done|].
  rewrite scrape_log_cons. unfold scrapes in *. rewrite omap_app, IH.
  by destruct (greenhouse env c t).
Qed.

Lemma scrape_log_plain env l :
  queries (scrape_log env l) = []
  ∧ summaries (scrape_log env l) = []
  ∧ notifications (scrape_log env l) = [].
Proof.
  induction l as [|[c t] l (IH1 & IH2 & IH3)]; [done|].
  rewrite scrape_log_cons. unfold queries, summaries, notifications in *.
  rewrite !omap_app, IH1, IH2, IH3. by destruct (greenhouse env c t).
Qed.

(** The script up to the loop over the users, exactly. *)
Lemma scrape_jobs_unfolded env db :
  run_cycle env db
  = if firestore_fails env 0
    then (Raised FirestoreError, World db 1 0 [Firestore StreamUsers])
    else match to_user <$> users_coll env with
         | [] => (Returned tt,
                  World db 1 0 [Firestore StreamUsers; Printed NoUsersFound])
         | users => for_each users (process_user env (snapshot env))
                      (after_scraping env db)
         end.
Proof.
  unfold run_cycle, scrape_jobs, get_user_preferences.
  unfold bind at 1. unfold bind at 1. rewrite firestore_run. simpl.
  destruct (firestore_fails env 0); [done|].
  unfold ret at 1. destruct (to_user <$> users_coll env) as [|u us]; [done|].
  unfold bind. by rewrite scrape_all_run.
Qed.

(** ** The loops over the companies and the postings of one user *)

Lemma job_lookup_plain F :
  Forall job_lookup F →
  summaries F = [] ∧ scrapes F = [] ∧ notifications F = [].
Proof.
  induction 1 as [|ev F Hev _ (IH1 & IH2 & IH3)]; [done|].
  unfold summaries, scrapes, notifications in *.
  change (ev :: F) with ([ev] ++ F). rewrite !omap_app, IH1, IH2, IH3.
  by destruct ev as [| |[]| |].
Qed.

Section Scan.
Context (env : environment) (all_jobs : gmap string (list job)).
Context (w0 : world) (p0 : list job).

Lemma scanning_check vis p j :
  hoare (scanning w0 p0 vis p) (check_job env p j)
        (scanning w0 p0 (vis ++ [j])) (scan_interrupted w0).
Proof.
  intros w (Hs & F & q & Htr & HF & HQ & -> & Hq). rewrite check_job_run.
  assert (Forall job_lookup (F ++ [Firestore (WhereJobId (job_id j))]))
    as HF1 by (apply Forall_app; by repeat constructor).
  assert (Forall job_lookup
            (F ++ [Firestore (WhereJobId (job_id j)); Firestore (AddJob j)]))
    as HF2 by (apply Forall_app; by repeat constructor).
  assert (queries (F ++ [Firestore (WhereJobId (job_id j))])
          = job_id <$> vis ++ [j]) as HQ1.
  { unfold queries in *. by rewrite omap_app, HQ, fmap_app. }
  assert (queries (F ++ [Firestore (WhereJobId (job_id j));
                         Firestore (AddJob j)])
          = job_id <$> vis ++ [j]) as HQ2.
  { unfold queries in *. by rewrite omap_app, HQ, fmap_app. }
  destruct (firestore_fails env (firestore_calls w)).
  { split; [done|]. eexists. split; [|exact HF1]. simpl.
    by rewrite Htr, <- app_assoc. }
  destruct (records (job_id j) (jobs_coll w)).
  2:{ split; [done|]. eexists _, q. split_and!; [|exact HF1|exact HQ1|done|].
      - simpl. by rewrite Htr, <- app_assoc.
      - by apply sublist_inserts_r. }
  destruct (firestore_fails env (S (firestore_calls w))).
  { split; [done|]. eexists. split; [|exact HF2]. simpl.
    by rewrite Htr, <- !app_assoc. }
  split; [done|]. eexists _, (q ++ [j]).
  split_and!; [|exact HF2|exact HQ2|by rewrite app_assoc|].
  - simpl. by rewrite Htr, <- !app_assoc.
  - by apply sublist_app.
Qed.

Lemma scanning_company vis p c :
  hoare (scanning w0 p0 vis p) (check_company env all_jobs p c)
        (scanning w0 p0 (vis ++ company_jobs all_jobs c))
        (scan_interrupted w0).
Proof.
  unfold check_company, company_jobs.
  destruct (all_jobs !! c) as [js|]; simpl.
  - eapply hoare_conseq;
      [apply (hoare_foldM (λ pre p, scanning w0 p0 (vis ++ pre) p)
                (scan_interrupted w0) (check_job env) js p)
      |..]; [|intros w Hw|intros a w Hw; exact Hw|done].
    + intros pre x suf b _. rewrite app_assoc. apply scanning_check.
    + simpl. by rewrite app_nil_r.
  - rewrite app_nil_r. by apply hoare_ret.
Qed.

Lemma scanning_user vis p cs :
  hoare (scanning w0 p0 vis p) (foldM (check_company env all_jobs) cs p)
        (scanning w0 p0 (vis ++ (cs ≫= company_jobs all_jobs)))
        (scan_interrupted w0).
Proof.
  eapply hoare_conseq;
    [apply (hoare_foldM
              (λ pre p, scanning w0 p0
                          (vis ++ (pre ≫= company_jobs all_jobs)) p)
              (scan_interrupted w0) (check_company env all_jobs) cs p)
    |..]; [|intros w Hw|intros a w Hw; exact Hw|done].
  - intros pre c suf b _. rewrite bind_app, app_assoc. simpl.
    rewrite app_nil_r. apply scanning_company.
  - simpl. by rewrite app_nil_r.
Qed.

End Scan.

Lemma scanning_start w : scanning w [] [] [] w.
Proof.
  split; [done|]. exists [], []. rewrite app_nil_r.
  split_and!; [done|constructor|done|done|constructor].
Qed.

(** ** The loop over the users, event by event *)

Lemma in_user_order_more all_jobs N us us2 :
  in_user_order all_jobs N us → in_user_order all_jobs N (us ++ us2).
Proof.
  intros (us' & Hsub & HN). exists us'. split; [|done].
  by apply sublist_inserts_r.
Qed.

Lemma reported_user env all_jobs w0 l pre u suf :
  l = pre ++ u :: suf →
  hoare (reported all_jobs w0 pre) (process_user env all_jobs u)
        (λ _, reported all_jobs w0 (pre ++ [u]))
        (report_interrupted all_jobs w0 l).
Proof.
  intros Hl w (T & Htr & Hsum & Hq & Hscr & Hsmtp & Hord).
  pose proof (scanning_user env all_jobs w [] [] [] (companies u) w
                (scanning_start w)) as Hin.
  simpl in Hin. unfold process_user, bind.
  destruct (foldM (check_company env all_jobs) (companies u) [] w)
    as [[p|e] w1].
  - destruct Hin as (Hs1 & F & q & Htr1 & HF & HQ & -> & Hsub). simpl.
    destruct (job_lookup_plain F HF) as (S1 & S2 & S3).
    assert (queries (T ++ F)
            = job_id <$> (pre ++ [u]) ≫= candidates all_jobs) as HQ'.
    { unfold queries in *. rewrite omap_app, Hq, HQ, bind_app. simpl.
      by rewrite app_nil_r, fmap_app. }
    destruct q as [|j q].
    + exists (T ++ F ++ [Printed (NoNewJobs (email u))]).
      unfold print, emit, modify, record_event. simpl.
      rewrite Htr1, Htr, <- !app_assoc.
      unfold summaries, queries, scrapes, notifications in *.
      rewrite !omap_app, S1, S2, S3, Hsum, Hscr. simpl.
      rewrite !app_nil_r, fmap_app. split_and!; [done|done| |done| |].
      * by rewrite omap_app in HQ'.
      * lia.
      * by apply in_user_order_more.
    + rewrite send_email_notification_run.
      exists (T ++ F ++
              [Notify (email u) (name u) (j :: q);
               Smtp (compose (email u) (name u) (j :: q))
                    (negb (smtp_fails env (smtp_sessions w1)));
               Printed (if smtp_fails env (smtp_sessions w1)
                        then EmailError (email u) SMTPError
                        else EmailSent (email u));
               Printed (SentEmail (email u) (length (j :: q)))]).
      unfold print, emit, modify, record_event, count_smtp. simpl.
      rewrite Htr1, Htr, <- !app_assoc.
      unfold summaries, queries, scrapes, notifications in *.
      rewrite omap_app in HQ'.
      rewrite !omap_app, S1, S2, S3, Hsum, Hscr, fmap_app, length_app.
      destruct (smtp_fails env (smtp_sessions w1)); simpl;
        rewrite ?app_nil_r.
      all: split_and!; [done|done|done|done|lia|].
      all: destruct Hord as (us' & Hus' & HN); exists (us' ++ [u]).
      all: split; [by apply sublist_app|].
      all: apply Forall2_app; [done|]; by repeat constructor.
  - destruct Hin as (Hs1 & F & Htr1 & HF).
    destruct (job_lookup_plain F HF) as (S1 & S2 & S3).
    exists (T ++ F). rewrite Htr1, Htr, <- app_assoc.
    unfold scrapes, notifications in *. rewrite !omap_app, S2, S3, Hscr.
    rewrite !app_nil_r. split_and!; [done|done|lia|].
    rewrite Hl. by apply in_user_order_more.
Qed.

Lemma reported_users env all_jobs l w :
  match for_each l (process_user env all_jobs) w with
  | (Returned _, w') => reported all_jobs w l w'
  | (Raised e, w') => report_interrupted all_jobs w l e w'
  end.
Proof.
  apply (hoare_for_each (reported all_jobs w)
           (report_interrupted all_jobs w l) (process_user env all_jobs) l).
  - intros pre u suf Hl. by eapply reported_user.
  - exists []. rewrite app_nil_r. split_and!; [done..|simpl; lia|].
    exists []. split; constructor.
Qed.

Lemma cycle_report env db :
  match run_cycle env db with
  | (Returned _, w) =>
      (users_coll env = []
       ∧ w = World db 1 0 [Firestore StreamUsers; Printed NoUsersFound])
      ∨ (firestore_fails env 0 = false ∧ users_coll env ≠ []
         ∧ reported (snapshot env) (after_scraping env db)
                    (to_user <$> users_coll env) w)
  | (Raised e, w) =>
      (firestore_fails env 0 = true
       ∧ w = World db 1 0 [Firestore StreamUsers])
      ∨ (firestore_fails env 0 = false ∧ users_coll env ≠ []
         ∧ report_interrupted (snapshot env) (after_scraping env db)
                              (to_user <$> users_coll env) e w)
  end.
Proof.
  rewrite scrape_jobs_unfolded.
  destruct (firestore_fails env 0); [by left|].
  destruct (users_coll env) as [|d ds] eqn:Hus; [by left|].
  pose proof (reported_users env (snapshot env) (to_user <$> d :: ds)
                (after_scraping env db)) as H.
  simpl in *.
  destruct (for_each _ _ _) as [[[]|e] w]; right; by split_and!.
Qed.

(** X1: When every page can be fetched, each configured page is requested
    once per run, in the order of [COMPANIES], and not at all when the
    ['users'] collection cannot be read or is empty. *)
Theorem pages_requested_once env db :
  pages_answer env →
  scrapes (trace (run_cycle env db).2)
  = if firestore_fails env 0 then []
    else match users_coll env with
         | [] => []
         | _ :: _ => COMPANIES env
         end.
Proof.
  intros _. pose proof (cycle_report env db) as H.
  destruct (run_cycle env db) as [[[]|e] w]; simpl.
  - destruct H as [[Hus ->]|(F0 & Hus & T & -> & _ & _ & HS & _)].
    + rewrite Hus. by destruct (firestore_fails env 0).
    + rewrite F0. destruct (users_coll env); [done|].
      unfold scrapes in *. simpl. rewrite omap_app, HS, app_nil_r.
      apply scrapes_scrape_log.
  - destruct H as [[F0 ->]|(F0 & Hus & T & -> & HS & _)].
    + by rewrite F0.
    + rewrite F0. destruct (users_coll env); [done|].
      unfold scrapes in *. simpl. rewrite omap_app, HS, app_nil_r.
      apply scrapes_scrape_log.
Qed.

Lemma pages_requested_once_witness :
  scrapes (trace (run_cycle Sample.shared []).2) = Sample.config
  ∧ scrapes (trace (run_cycle Sample.nobody []).2) = [].
Proof.
  split.
  - apply (pages_requested_once Sample.shared []). compute_done.
  - apply (pages_requested_once Sample.nobody []). compute_done.
Defined.

(** X2: When the run returns, the store was asked once for each posting of
    each company of each user, in the order of the users, of their
    companies and of the pages: a posting that two users reach is looked
    up twice. *)
Theorem one_lookup_per_candidate env db :
  (run_cycle env db).1 = Returned tt →
  queries (trace (run_cycle env db).2)
  = job_id <$> ((to_user <$> users_coll env) ≫= candidates (snapshot env)).
Proof.
  intros Hret. pose proof (cycle_report env db) as H.
  destruct (run_cycle env db) as [[[]|e] w]; [|done]. simpl.
  destruct H as [[Hus ->]|(F0 & Hus & T & -> & _ & HQ & _)].
  - by rewrite Hus.
  - destruct (scrape_log_plain env (COMPANIES env)) as (Q0 & _).
    unfold queries in *. simpl. by rewrite omap_app, Q0, HQ.
Qed.

Lemma one_lookup_per_candidate_witness :
  queries (trace (run_cycle Sample.shared []).2) = ["a1"; "a1"].
Proof.
  pose proof (one_lookup_per_candidate Sample.shared []) as H.
  ospecialize (H _); [by vm_compute|]. exact H.
Defined.

(** X3: When the run returns, it has printed one summary line per user
    ("Sent email to ..." or "No new jobs found for ..."), in the order
    of the ['users'] collection. *)
Theorem one_summary_per_user env db :
  (run_cycle env db).1 = Returned tt →
  summaries (trace (run_cycle env db).2)
  = email <$> (to_user <$> users_coll env).
Proof.
  intros Hret. pose proof (cycle_report env db) as H.
  destruct (run_cycle env db) as [[[]|e] w]; [|done]. simpl.
  destruct H as [[Hus ->]|(F0 & Hus & T & -> & HS & _)].
  - by rewrite Hus.
  - destruct (scrape_log_plain env (COMPANIES env)) as (_ & S0 & _).
    unfold summaries in *. simpl. by rewrite omap_app, S0, HS.
Qed.

Lemma one_summary_per_user_witness :
  summaries (trace (run_cycle Sample.shared []).2)
  = [Some "s1@example.org"; Some "s2@example.org"].
Proof.
  pose proof (one_summary_per_user Sample.shared []) as H.
  ospecialize (H _); [by vm_compute|]. exact H.
Defined.

Lemma cycle_mails env db :
  let w := (run_cycle env db).2 in
  smtp_sessions w = length (notifications (trace w))
  ∧ length (notifications (trace w)) ≤ length (users_coll env)
  ∧ in_user_order (snapshot env) (notifications (trace w))
                  (to_user <$> users_coll env).
Proof.
  assert (∀ w us,
    (∃ T, trace w = trace (after_scraping env db) ++ T
          ∧ smtp_sessions w
            = smtp_sessions (after_scraping env db)
              + length (notifications T)
          ∧ in_user_order (snapshot env) (notifications T) us) →
    smtp_sessions w = length (notifications (trace w))
    ∧ length (notifications (trace w)) ≤ length us
    ∧ in_user_order (snapshot env) (notifications (trace w)) us) as Hgen.
  { intros w us (T & -> & Hsmtp & Hord).
    destruct (scrape_log_plain env (COMPANIES env)) as (_ & _ & N0).
    assert (notifications (trace (after_scraping env db) ++ T)
            = notifications T) as ->.
    { unfold notifications in *. simpl. by rewrite omap_app, N0. }
    split_and!; [done| |done].
    destruct Hord as (us' & Hsub & HN).
    rewrite (Forall2_length _ _ _ HN). by apply sublist_length. }
  assert (in_user_order (snapshot env) [] (to_user <$> users_coll env))
    as Hnone by (exists []; split; [apply sublist_nil_l | constructor]).
  pose proof (cycle_report env db) as H. simpl.
  rewrite <- (length_fmap to_user (users_coll env)).
  destruct (run_cycle env db) as [[[]|e] w]; simpl.
  - destruct H as [[Hus ->]|(F0 & Hus & T & ? & _ & _ & _ & ? & ?)].
    + simpl. split_and!; [done|lia|done].
    + apply Hgen. by exists T.
  - destruct H as [[F0 ->]|(F0 & Hus & T & ? & _ & ? & ?)].
    + simpl. split_and!; [done|lia|done].
    + apply Hgen. by exists T.
Qed.

(** X4: Whatever fails, [send_email_notification] is called at most once per
    user and in the order of the users, never with an empty list; the
    postings it is given are postings of the companies of the user, in
    the order of these companies and of their pages; and one SMTP
    session is opened per call. *)
Theorem one_mail_per_notified_user env db :
  let w := (run_cycle env db).2 in
  smtp_sessions w = length (notifications (trace w))
  ∧ length (notifications (trace w)) ≤ length (users_coll env)
  ∧ in_user_order (snapshot env) (notifications (trace w))
                  (to_user <$> users_coll env).
Proof. apply cycle_mails. Qed.

(** ** The store over several runs *)

(** X5: The script only appends to the ['jobs'] collection: whatever the
    runs and whatever fails in them, the documents stored before are
    still there, unchanged and in the same order. *)
Theorem store_only_grows (envs : list environment) (db : list job) :
  db `prefix_of` run_cycles envs db.
Proof. destruct (run_cycles_grows envs db) as [B ->]. by exists B. Qed.

Lemma notified_then_stored env db j :
  j ∈ notified_jobs (trace (run_cycle env db).2) → j ∈ store_after env db.
Proof.
  intros Hj. destruct (cycle_ledger env db) as (B & (_ & Hdb & _) & _).
  unfold store_after. rewrite Hdb. apply elem_of_app. right.
  apply elem_of_app. by left.
Qed.

Lemma run_history_spec envs db :
  NoDup (job_id <$> run_history envs db)
  ∧ (∀ j, j ∈ run_history envs db →
       (job_id j ∉ job_id <$> db) ∧ j ∈ run_cycles envs db).
Proof.
  revert db. induction envs as [|env envs IH]; intros db.
  { split; [constructor | intros j []%elem_of_nil]. }
  destruct (IH (store_after env db)) as [Hnd Hin]. simpl.
  destruct (cycle_ledger env db) as (B & (_ & Hdb & [HndB Hfr] & _) & _).
  fold (store_after env db) in Hdb.
  rewrite fmap_app in HndB. apply NoDup_app in HndB as (HndN & _ & _).
  split.
  - rewrite fmap_app. apply NoDup_app. split_and!; [done| |done].
    intros i (j & -> & Hj)%list_elem_of_fmap (j' & Hid & Hj')%list_elem_of_fmap.
    destruct (Hin j' Hj') as [Hno _]. apply Hno. rewrite <- Hid.
    apply list_elem_of_fmap_2. by apply notified_then_stored.
  - intros j [Hj|Hj]%elem_of_app.
    + split.
      * apply Hfr. apply elem_of_app. by left.
      * destruct (run_cycles_grows envs (store_after env db)) as [B' HB'].
        unfold run_cycles in *. simpl. rewrite HB'. apply elem_of_app. left.
        by apply notified_then_stored.
    + destruct (Hin j Hj) as [Hno Hst]. split; [|done].
      intros Hdbin. apply Hno. rewrite Hdb, fmap_app. apply elem_of_app.
      by left.
Qed.

(** X6: Over any sequence of runs, whatever fails in them, no identifier is
    handed to the notifier twice, none that was in the store at the
    start is handed over at all, and every posting handed over is in
    the store at the end. *)
Theorem never_notified_twice (envs : list environment) (db : list job) :
  NoDup (job_id <$> run_history envs db)
  ∧ (∀ j, j ∈ run_history envs db → job_id j ∉ job_id <$> db)
  ∧ (∀ j, j ∈ run_history envs db → j ∈ run_cycles envs db).
Proof.
  destruct (run_history_spec envs db) as [Hnd Hin].
  split_and!; [done|..]; intros j Hj; by destruct (Hin j Hj).
Qed.

(** Without a Firestore failure, every posting of every company of
    every user has its identifier in the store when the run is over. *)
Lemma candidates_stored env db u j :
  no_firestore_failure env →
  u ∈ to_user <$> users_coll env → j ∈ candidates (snapshot env) u →
  job_id j ∈ job_id <$> store_after env db.
Proof.
  intros Hok Hu (c & jobs & Hc & Hjobs & Hj)%candidates_inv.
  destruct (decide (job_id j ∈ job_id <$> db)) as [Hin|Hnew].
  - destruct (store_after_grows env db) as [B ->].
    rewrite fmap_app. apply elem_of_app. by left.
  - destruct (fresh_posting_notified env db u c jobs j)
      as (w & Hw & Hin & _); [done..|].
    unfold store_after. by rewrite Hw.
Qed.

(** X7: A second run right after a run without Firestore failure, with the
    same users and the same pages, stores nothing and notifies nobody,
    whether Firestore or the SMTP server fail in it or not. *)
Theorem rerun_is_quiet env env2 db :
  no_firestore_failure env →
  users_coll env2 = users_coll env → snapshot env2 = snapshot env →
  store_after env2 (store_after env db) = store_after env db
  ∧ notifications (trace (run_cycle env2 (store_after env db)).2) = [].
Proof.
  intros Hok Hus Hsnap.
  destruct (cycle_ledger env2 (store_after env db))
    as (B & (_ & Hdb & [_ Hfr] & Hprov & _) & _).
  assert (notified_jobs (trace (run_cycle env2 (store_after env db)).2) ++ B
          = []) as Hnil.
  { destruct (notified_jobs _ ++ B) as [|j rest]; [done|]. exfalso.
    destruct (Hprov j) as (u & Hu & Hcand); [left|].
    apply (Hfr j); [left|]. rewrite Hus in Hu. rewrite Hsnap in Hcand.
    by eapply candidates_stored. }
  apply app_eq_nil in Hnil as [Hnone ->]. split.
  - unfold store_after at 1. by rewrite Hdb, Hnone, !app_nil_r.
  - destruct (cycle_mails env2 (store_after env db))
      as (_ & _ & us' & _ & HN).
    destruct (notifications (trace (run_cycle env2 (store_after env db)).2))
      as [|[[e n] L] N] eqn:EN; [done|].
    exfalso. inversion HN as [|?? ?? (_ & _ & HL & _) _]; subst.
    simpl in HL. destruct L as [|j L]; [done|].
    assert (j ∈ notified_jobs
                  (trace (run_cycle env2 (store_after env db)).2)) as Hj.
    { apply elem_of_notified_jobs. exists e, n, (j :: L).
      rewrite EN. split; left. }
    rewrite Hnone in Hj. by apply elem_of_nil in Hj.
Qed.

Lemma rerun_is_quiet_witness :
  store_after Sample.shared (store_after Sample.shared [])
  = store_after Sample.shared []
  ∧ notifications
      (trace (run_cycle Sample.shared (store_after Sample.shared [])).2)
    = [].
Proof.
  apply (rerun_is_quiet Sample.shared Sample.shared []).
  - intros n. reflexivity.
  - reflexivity.
  - reflexivity.
Defined.

(** ** The HTML table and the mail *)

Lemma sorted_groups_keys jobs :
  ∃ keys, NoDup keys
          ∧ (∀ j, j ∈ jobs → company j ∈ keys)
          ∧ sorted_groups jobs
            = (λ c, (c, filter (λ j, company j = c) jobs)) <$> keys.
Proof.
  unfold sorted_groups.
  set (keys := merge_sort str_le (elements (dom (group_by_company jobs)))).
  assert (∀ c, c ∈ keys ↔ ∃ j, j ∈ jobs ∧ company j = c) as Hkeys.
  { intros c. unfold keys. rewrite merge_sort_Permutation, elem_of_elements.
    apply group_by_company_dom. }
  exists keys. split_and!.
  - unfold keys. rewrite merge_sort_Permutation. apply NoDup_elements.
  - intros j Hj. apply Hkeys. by exists j.
  - apply Forall_fmap_ext_1, Forall_forall. intros c (j & Hj & Hc)%Hkeys.
    f_equal. rewrite lookup_total_alt, group_by_company_lookup.
    assert (j ∈ filter (λ j, company j = c) jobs) as Hin
      by by apply list_elem_of_filter.
    destruct (filter (λ j, company j = c) jobs); [|done].
    by apply elem_of_nil in Hin.
Qed.

Lemma bind_filter_skip (keys : list string) j js :
  company j ∉ keys →
  keys ≫= (λ c, filter (λ j', company j' = c) (j :: js))
  = keys ≫= (λ c, filter (λ j', company j' = c) js).
Proof.
  intros Hno. apply Forall_bind_ext, Forall_forall. intros c Hc.
  rewrite filter_cons. destruct (decide (company j = c)) as [<-|]; done.
Qed.

Lemma bind_filter_cons (keys : list string) j js :
  NoDup keys → company j ∈ keys →
  keys ≫= (λ c, filter (λ j', company j' = c) (j :: js))
  ≡ₚ j :: (keys ≫= (λ c, filter (λ j', company j' = c) js)).
Proof.
  induction keys as [|c keys IH]; intros Hnd Hin.
  { by apply elem_of_nil in Hin. }
  apply NoDup_cons in Hnd as [Hc Hnd]. rewrite !bind_cons, filter_cons.
  destruct (decide (company j = c)) as [Heq|Hne].
  - rewrite bind_filter_skip; [done|]. by rewrite Heq.
  - apply elem_of_cons in Hin as [?|Hin]; [done|].
    rewrite IH by done. symmetry. apply Permutation_middle.
Qed.

(** Grouping by company loses and repeats nothing. *)
Lemma groups_permutation (keys : list string) jobs :
  NoDup keys → (∀ j, j ∈ jobs → company j ∈ keys) →
  keys ≫= (λ c, filter (λ j, company j = c) jobs) ≡ₚ jobs.
Proof.
  intros Hnd. induction jobs as [|j jobs IH]; intros Hcover.
  - clear. induction keys as [|c keys IH]; [done|].
    by rewrite bind_cons, filter_nil.
  - rewrite bind_filter_cons; [|done|apply Hcover; left].
    constructor. apply IH. intros j' Hj'. apply Hcover. by right.
Qed.

Lemma sorted_groups_flatten jobs : sorted_groups jobs ≫= snd ≡ₚ jobs.
Proof.
  destruct (sorted_groups_keys jobs) as (keys & Hnd & Hcover & ->).
  rewrite list_fmap_bind. by apply groups_permutation.
Qed.

Lemma job_rows_only (L : list job) :
  filter is_job_row (job_row <$> L) = job_row <$> L.
Proof.
  induction L as [|j L IH]; [done|].
  rewrite fmap_cons, filter_cons_True by done. by rewrite IH.
Qed.

Lemma table_cons c L (G : list (string * list job)) :
  flat_map (λ g : string * list job, CompanyHeader g.1 :: (job_row <$> g.2))
           ((c, L) :: G)
  = (CompanyHeader c :: (job_row <$> L))
    ++ flat_map (λ g : string * list job,
                   CompanyHeader g.1 :: (job_row <$> g.2)) G.
Proof. done. Qed.

Lemma job_rows_of_table (G : list (string * list job)) :
  filter is_job_row
    (flat_map (λ g : string * list job,
                 CompanyHeader g.1 :: (job_row <$> g.2)) G)
  = job_row <$> (G ≫= snd).
Proof.
  induction G as [|[c L] G IH]; [done|].
  rewrite table_cons, bind_cons, filter_app, IH, fmap_app.
  rewrite filter_cons_False by (intros []). by rewrite job_rows_only.
Qed.

Lemma length_of_table (G : list (string * list job)) :
  length (flat_map (λ g : string * list job,
                      CompanyHeader g.1 :: (job_row <$> g.2)) G)
  = length G + length (G ≫= snd).
Proof.
  induction G as [|[c L] G IH]; [done|].
  rewrite table_cons, bind_cons, !length_app, IH. simpl.
  rewrite length_fmap. lia.
Qed.

Lemma job_rows_permutation (jobs : list job) :
  filter is_job_row (create_html_table jobs) ≡ₚ job_row <$> jobs.
Proof.
  unfold create_html_table. rewrite filter_cons_False by (intros []).
  rewrite job_rows_of_table. by rewrite sorted_groups_flatten.
Qed.

(** X8: The HTML table has one row per posting, each posting once, under
    one header per company, after the head of the table: grouping
    loses no posting and repeats none. *)
Theorem html_table_complete (jobs : list job) :
  filter is_job_row (create_html_table jobs) ≡ₚ job_row <$> jobs
  ∧ length (create_html_table jobs)
    = 1 + length (sorted_groups jobs) + length jobs
  ∧ (∀ c, c ∈ (sorted_groups jobs).*1 ↔ ∃ j, j ∈ jobs ∧ company j = c)
  ∧ NoDup (sorted_groups jobs).*1.
Proof.
  split_and!.
  - apply job_rows_permutation.
  - unfold create_html_table. simpl. rewrite length_of_table.
    by rewrite sorted_groups_flatten.
  - intros c. destruct (sorted_groups_spec jobs) as (_ & Hgroup & Hall).
    split.
    + intros ([c' L] & -> & Hin)%list_elem_of_fmap.
      destruct (Hgroup c' L Hin) as [Hne ->]. simpl.
      destruct (filter (λ j, company j = c') jobs) as [|j ?] eqn:E; [done|].
      assert (j ∈ filter (λ j, company j = c') jobs) as [? ?]%list_elem_of_filter
        by (rewrite E; left).
      by exists j.
    + intros (j & Hj & <-). destruct (Hall j Hj) as (L & HL & _).
      apply list_elem_of_fmap. by exists (company j, L).
  - destruct (sorted_groups_keys jobs) as (keys & Hnd & _ & ->).
    rewrite <- list_fmap_compose. by rewrite list_fmap_id.
Qed.

(** X9: The HTML table depends on the order of the postings only inside
    each company: two lists with the same postings per company, in the
    same order per company, give the same table, however the companies
    are interleaved. *)
Theorem html_table_ignores_company_order (jobs1 jobs2 : list job) :
  (∀ c, filter (λ j, company j = c) jobs1
        = filter (λ j, company j = c) jobs2) →
  create_html_table jobs1 = create_html_table jobs2.
Proof.
  intros Hsame.
  assert (group_by_company jobs1 = group_by_company jobs2) as Hg.
  { apply map_eq. intros c. by rewrite !group_by_company_lookup, Hsame. }
  unfold create_html_table, sorted_groups. by rewrite Hg.
Qed.

Lemma html_table_ignores_company_order_witness :
  create_html_table [Sample.be; Sample.al]
  = create_html_table [Sample.al; Sample.be].
Proof.
  apply html_table_ignores_company_order. intros c.
  rewrite !filter_cons, !filter_nil.
  destruct (decide (company Sample.be = c)) as [H1|],
           (decide (company Sample.al = c)) as [H2|]; try done.
  simpl in H1, H2. rewrite <- H1 in H2. discriminate H2.
Defined.

(** X10: The number of positions announced in the subject of the mail is the
    number of postings listed in its plain-text part and the number of
    posting rows of its HTML table. *)
Theorem subject_counts_postings (e n : option string) (jobs : list job) :
  msg_subject (compose e n jobs) = length (msg_text (compose e n jobs))
  ∧ msg_subject (compose e n jobs)
    = length (filter is_job_row (msg_html (compose e n jobs))).
Proof.
  simpl. split; [by rewrite length_fmap|].
  by rewrite job_rows_permutation, length_fmap.
Qed.

(** ** Companies that are not configured *)

Lemma scraped_is_Some env l m0 c :
  is_Some (scraped env l m0 !! c) ↔ is_Some (m0 !! c) ∨ c ∈ l.*1.
Proof.
  revert m0. induction l as [|[c1 t1] l IH]; intros m0; simpl.
  { split; [by left | by intros [?|?%elem_of_nil]]. }
  rewrite IH, elem_of_cons. destruct (decide (c1 = c)) as [->|Hne].
  - rewrite lookup_insert_eq. split; [intros _; right; by left|].
    intros _. by left.
  - rewrite lookup_insert_ne by done. split.
    + intros [?|?]; [by left | right; by right].
    + intros [?|[->|?]]; [by left | done | by right].
Qed.

Lemma snapshot_is_Some env c :
  is_Some (snapshot env !! c) ↔ c ∈ (COMPANIES env).*1.
Proof.
  unfold snapshot. fold (scraped env (COMPANIES env) ∅).
  rewrite scraped_is_Some, lookup_empty. split; [|by right].
  by intros [[? [=]]|?].
Qed.

(** X11: When every page can be fetched, the loop of lines 45-49 returns a
    dict with exactly one entry per configured company and no other,
    and the entry of a company is what its page returned, the empty
    list included. *)
Theorem all_jobs_keys env :
  pages_answer env → NoDup (COMPANIES env).*1 →
  (∀ w, (scrape_all env w).1 = Returned (snapshot env))
  ∧ (∀ c, is_Some (snapshot env !! c) ↔ c ∈ (COMPANIES env).*1)
  ∧ (∀ c t jobs, (c, t) ∈ COMPANIES env →
       greenhouse env c t = Fetched jobs → snapshot env !! c = Some jobs).
Proof.
  intros _ Hnd. split_and!.
  - intros w. by rewrite scrape_all_run.
  - apply snapshot_is_Some.
  - intros c t jobs Hin Hjobs. rewrite (snapshot_in env c t Hnd Hin).
    unfold fetch. by rewrite Hjobs.
Qed.

Lemma all_jobs_keys_witness :
  let env := Sample.one_each (Fetched [Sample.a1]) (Fetched []) Sample.never in
  snapshot env !! "Globex" = Some [] ∧ snapshot env !! "Initech" = None.
Proof.
  destruct (all_jobs_keys
              (Sample.one_each (Fetched [Sample.a1]) (Fetched [])
                 Sample.never)) as (_ & Hkeys & Hentry);
    [compute_done..|].
  split.
  - apply (Hentry "Globex" "globex"); compute_done.
  - apply eq_None_not_Some. intros Hsome%Hkeys. revert Hsome. compute_done.
Defined.

Lemma check_companies_unknown env all_jobs cs p w :
  (∀ c, c ∈ cs → all_jobs !! c = None) →
  foldM (check_company env all_jobs) cs p w = (Returned p, w).
Proof.
  induction cs as [|c cs IH]; intros Hcs; [done|].
  simpl. unfold bind, check_company at 1. rewrite (Hcs c) by left.
  unfold ret. apply IH. intros c' Hc'. apply Hcs. by right.
Qed.

(** X12: A user whose document has no ['companies'] field, or only company
    names that are not configured, costs no call to Firestore and no
    mail: the pass prints "No new jobs found" and nothing else
    happens. *)
Theorem unknown_companies_ignored env (d : user_doc) (w : world) :
  (∀ c, c ∈ default [] (doc_companies d) → c ∉ (COMPANIES env).*1) →
  process_user env (snapshot env) (to_user d) w
  = (Returned tt, record_event (Printed (NoNewJobs (doc_email d))) w).
Proof.
  intros Hunknown. unfold process_user, bind.
  rewrite check_companies_unknown; [done|].
  intros c Hc. apply eq_None_not_Some. intros Hsome.
  apply (Hunknown c Hc). by apply snapshot_is_Some.
Qed.

Lemma unknown_companies_ignored_witness :
  process_user Sample.shared (snapshot Sample.shared)
    (to_user (Sample.doc "s3" ["Initech"])) (boot [Sample.a1])
  = (Returned tt,
     World [Sample.a1] 0 0 [Printed (NoNewJobs (Some "s3@example.org"))]).
Proof.
  apply (unknown_companies_ignored Sample.shared
           (Sample.doc "s3" ["Initech"]) (boot [Sample.a1])).
  intros c Hc. apply list_elem_of_singleton in Hc as ->. compute_done.
Defined.

(** ** A failure of the SMTP server *)

(** A run that returns has gone through every user and every posting of
    their companies. *)
Lemma returned_run_report env db a :
  (run_cycle env db).1 = Returned a →
  summaries (trace (run_cycle env db).2)
  = email <$> (to_user <$> users_coll env)
  ∧ queries (trace (run_cycle env db).2)
    = job_id <$> ((to_user <$> users_coll env) ≫= candidates (snapshot env)).
Proof.
  intros Hret. pose proof (cycle_report env db) as H.
  destruct (run_cycle env db) as [[[]|e] w]; [|done]. simpl.
  destruct H as [[Hus ->]|(F0 & Hus & T & -> & HS & HQ & _)].
  - by rewrite Hus.
  - destruct (scrape_log_plain env (COMPANIES env)) as (Q0 & S0 & _).
    unfold summaries, queries in *. simpl.
    by rewrite !omap_app, S0, Q0, HS, HQ.
Qed.

(** C8: [send_email_notification] always returns, leaves the store
    alone and logs the error of a failed session. A run under another
    SMTP server ends the same way, with the same store, the same users
    handed to the notifier with the same postings, and the same events
    outside the SMTP sessions; a run never raises an SMTP error.
    Whatever the SMTP server does, a run that returns has printed the
    summary line of every user and looked up every posting of their
    companies, every call of the notifier has had its SMTP session,
    and, when Firestore does not fail, the run returns and every new
    posting of a company somebody follows is stored and handed to the
    notifier. *)
Theorem smtp_failure_contained env f db :
  (∀ e n jobs w,
     let failed := smtp_fails env (smtp_sessions w) in
     send_email_notification env e n jobs w
     = (Returned tt,
        World (jobs_coll w) (firestore_calls w) (S (smtp_sessions w))
              (trace w ++
               [Notify e n jobs;
                Smtp (compose e n jobs) (negb failed);
                Printed (if failed then EmailError e SMTPError
                         else EmailSent e)])))
  ∧ (run_cycle (with_smtp f env) db).1 = (run_cycle env db).1
  ∧ jobs_coll (run_cycle (with_smtp f env) db).2
    = jobs_coll (run_cycle env db).2
  ∧ notifications (trace (run_cycle (with_smtp f env) db).2)
    = notifications (trace (run_cycle env db).2)
  ∧ filter outside_smtp (trace (run_cycle (with_smtp f env) db).2)
    = filter outside_smtp (trace (run_cycle env db).2)
  ∧ (run_cycle env db).1 ≠ Raised SMTPError
  ∧ (∀ a, (run_cycle (with_smtp f env) db).1 = Returned a →
       summaries (trace (run_cycle (with_smtp f env) db).2)
       = email <$> (to_user <$> users_coll env)
       ∧ queries (trace (run_cycle (with_smtp f env) db).2)
         = job_id <$> ((to_user <$> users_coll env)
                         ≫= candidates (snapshot env)))
  ∧ smtp_sessions (run_cycle (with_smtp f env) db).2
    = length (notifications (trace (run_cycle (with_smtp f env) db).2))
  ∧ in_user_order (snapshot env)
      (notifications (trace (run_cycle (with_smtp f env) db).2))
      (to_user <$> users_coll env)
  ∧ (no_firestore_failure env →
     ∃ w, run_cycle (with_smtp f env) db = (Returned tt, w)
          ∧ ∀ u c jobs P,
              u ∈ to_user <$> users_coll env → c ∈ companies u →
              snapshot env !! c = Some jobs → P ∈ jobs →
              job_id P ∉ job_id <$> db →
              job_id P ∈ job_id <$> jobs_coll w
              ∧ ∃ u' L j, u' ∈ to_user <$> users_coll env
                          ∧ (email u', name u', L) ∈ notifications (trace w)
                          ∧ j ∈ L ∧ job_id j = job_id P).
Proof.
  split.
  { intros e n jobs w failed. rewrite send_email_notification_run.
    unfold record_event, count_smtp. simpl. by rewrite <- !app_assoc. }
  destruct (agree_scrape_jobs env f (boot db) (boot db)) as (Ho & Hdb & _ & Htr);
    [done|].
  fold (run_cycle env db) in Ho, Hdb, Htr.
  fold (run_cycle (with_smtp f env) db) in Ho, Hdb, Htr.
  split_and!; [done..| |done| | | | |].
  - by rewrite <- notifications_outside_smtp, <- Htr,
      notifications_outside_smtp.
  - pose proof (cycle_faults env db) as HF.
    destruct (run_cycle env db) as [[[]|e] w]; [done|].
    destruct HF as (-> & _). done.
  - intros a. apply (returned_run_report (with_smtp f env) db a).
  - apply (cycle_mails (with_smtp f env) db).
  - apply (cycle_mails (with_smtp f env) db).
  - intros Hok.
    assert (no_firestore_failure (with_smtp f env)) as Hok' by exact Hok.
    pose proof (cycle_faults (with_smtp f env) db) as HF.
    destruct (run_cycle (with_smtp f env) db) as [[[]|e] w] eqn:Hrun.
    2:{ destruct HF as (_ & _ & n & _ & Hn & _). by rewrite Hok' in Hn. }
    exists w. split; [done|]. intros u c jobs P Hu Hc Hjobs HP Hnew.
    destruct (fresh_posting_notified (with_smtp f env) db u c jobs P)
      as (w2 & Hw2 & Hin & Hnot); [done..|].
    rewrite Hrun in Hw2. injection Hw2 as <-. by split.
Qed.

Lemma smtp_failure_contained_witness :
  let env := Sample.one_each (Fetched [Sample.a1]) (Fetched [Sample.g1])
                             Sample.never in
  let down := with_smtp (Sample.only 0) env in
  Smtp (compose (Some "s1@example.org") (Some "s1") [Sample.a1]) false
    ∈ trace (run_cycle down []).2
  ∧ summaries (trace (run_cycle down []).2)
    = [Some "s1@example.org"; Some "s2@example.org"]
  ∧ notifications (trace (run_cycle down []).2)
    = [(Some "s1@example.org", Some "s1", [Sample.a1]);
       (Some "s2@example.org", Some "s2", [Sample.g1])]
  ∧ ∃ w, run_cycle down [] = (Returned tt, w)
         ∧ "g1" ∈ job_id <$> jobs_coll w.
Proof.
  intros env down.
  destruct (smtp_failure_contained env (Sample.only 0) [])
    as (_ & _ & _ & HN & _ & _ & Hdone & _ & _ & Hlive).
  split_and!.
  - compute_done.
  - destruct (Hdone tt) as [Hs _]; [by vm_compute|]. exact Hs.
  - etrans; [exact HN|]. by vm_compute.
  - destruct Hlive as (w & Hw & Hall); [intros n; reflexivity|].
    exists w. split; [exact Hw|].
    destruct (Hall (to_user (Sample.doc "s2" ["Globex"])) "Globex"
                [Sample.g1] Sample.g1) as [Hin _];
      [compute_done..|].
    exact Hin.
Defined.
